(** * fundraiser-lib, [src/bitcoin.js]: address derivation and the final
      (sweep) transaction.

    The development embeds [getAddress], [createFinalTx] and [sign] of
    [src/bitcoin.js] together with the parts of their collaborators they
    rely on (bitcoinjs-lib's [Transaction] container and script templates,
    bs58check, secp256k1's signature normalisation and DER export), and
    proves the properties of the specification about them.

    JavaScript numbers are IEEE-754 binary64 values: they are modelled by
    [spec_float] with the operations of [SpecFloat] at precision 53 and
    maximal exponent 1024, rounding to nearest even, so [tx.byteLength() *
    feeRate] and [value * ATOMS_PER_BTC / 1e8] evaluate here to the very
    doubles a JavaScript engine produces. *)

From Stdlib Require Import ZArith NArith String Ascii Bool Lia QArith List.
From Stdlib Require Import Floats.SpecFloat.
From Stdlib Require Strings.Byte.
Import ListNotations.

Local Open Scope Z_scope.

(* ================================================================== *)
(** ** JavaScript numbers *)
(* ================================================================== *)

Module Number.

Definition prec : Z := 53.
Definition emax : Z := 1024.

Definition number : Type := spec_float.

(** An integer literal or integer-valued quantity as a double. *)
Definition of_Z (z : Z) : number := binary_normalize prec emax z 0 false.


Definition add : number -> number -> number := SFadd prec emax.
Definition sub : number -> number -> number := SFsub prec emax.
Definition mul : number -> number -> number := SFmul prec emax.
Definition div : number -> number -> number := SFdiv prec emax.
Definition ltb : number -> number -> bool := SFltb.
Definition leb : number -> number -> bool := SFleb.

Definition NaN : number := S754_nan.
Definition zero : number := S754_zero false.

Definition is_nan (x : number) : bool :=
  match x with S754_nan => true | _ => false end.

Definition is_finite (x : number) : bool :=
  match x with S754_zero _ | S754_finite _ _ _ => true | _ => false end.

(** ToBoolean on a number: [+0], [-0] and [NaN] are falsy. *)
Definition to_boolean (x : number) : bool :=
  match x with S754_zero _ | S754_nan => false | _ => true end.

(** The exact rational value of a finite double. *)
Definition to_Q (x : number) : option Q :=
  match x with
  | S754_zero _ => Some 0%Q
  | S754_finite s m e =>
      Some (inject_Z (cond_Zopp s (Zpos m)) * Qpower (inject_Z 2) e)%Q
  | _ => None
  end.



(** The double of sign [s] holding the integer [c], for [0 < c < 2^53]: 53
    bits of mantissa and the exponent that goes with them. *)
Definition canon (s : bool) (c : Z) : number :=
  S754_finite s (Z.to_pos (c * 2 ^ (52 - Z.log2 c))) (Z.log2 c - 52).

End Number.

Import Number.

(** A JavaScript value in the position of the [feeRate] argument: the
    argument may be left out ([undefined]), be [null], or be a number. *)
Inductive jsval : Type :=
| JUndefined
| JNull
| JNumber (x : number).

(** ToBoolean. *)
Definition truthy (v : jsval) : bool :=
  match v with
  | JUndefined | JNull => false
  | JNumber x => to_boolean x
  end.

(** ToNumber. *)
Definition to_number (v : jsval) : number :=
  match v with
  | JUndefined => NaN
  | JNull => zero
  | JNumber x => x
  end.

(* ================================================================== *)
(** ** Buffers *)
(* ================================================================== *)

Definition Buffer : Type := list Byte.byte.

Definition byte_of_N (n : N) : Byte.byte :=
  match Byte.of_N n with Some b => b | None => Byte.x00 end.

Definition byte_to_Z (b : Byte.byte) : Z := Z.of_N (Byte.to_N b).

Definition byte_of_Z (z : Z) : Byte.byte := byte_of_N (Z.to_N z).

(** Modelled from the spec: [byte] of [./util.js], which is not among the
    sources; it makes the one-byte buffer holding its argument ("prepend a
    single version byte"). *)
Definition byte (n : Z) : Buffer := [byte_of_Z n].

(** Modelled from the spec: [concat] of [./util.js], which is not among the
    sources; it joins two byte strings. *)
Definition concat (a b : Buffer) : Buffer := a ++ b.

Definition hex_digit (c : ascii) : option N :=
  let n := N_of_ascii c in
  if ((48 <=? n) && (n <=? 57))%N then Some (n - 48)%N
  else if ((97 <=? n) && (n <=? 102))%N then Some (n - 87)%N
  else if ((65 <=? n) && (n <=? 70))%N then Some (n - 55)%N
  else None.

(** [Buffer(str, 'hex')]: pairs of hexadecimal digits are decoded from the
    left; decoding stops at the first pair that is not hexadecimal, and a
    trailing single character is dropped. *)
Fixpoint Buffer_from_hex (s : string) : Buffer :=
  match s with
  | String c1 (String c2 rest) =>
      match hex_digit c1, hex_digit c2 with
      | Some h, Some l => byte_of_N (16 * h + l) :: Buffer_from_hex rest
      | _, _ => []
      end
  | _ => []
  end.

Definition Buffer_eqb (a b : Buffer) : bool :=
  if list_eq_dec Byte.byte_eq_dec a b then true else false.

(* ================================================================== *)
(** ** Positional number systems (base 58 and base 256) *)
(* ================================================================== *)

Module Radix.

Local Open Scope N_scope.

(** Value of a digit string, least significant digit first. *)
Fixpoint of_lsb (b : N) (ds : list N) : N :=
  match ds with
  | [] => 0
  | d :: ds' => d + b * of_lsb b ds'
  end.

(** Digits of [n], least significant first; [fuel] bounds their number. *)
Fixpoint to_lsb (fuel : nat) (b : N) (n : N) : list N :=
  match fuel with
  | O => []
  | S fuel' =>
      if n =? 0 then [] else (n mod b) :: to_lsb fuel' b (n / b)
  end.

(** Most significant digit first, as byte strings and base-58 strings
    are written. *)
Definition of_digits (b : N) (ds : list N) : N := of_lsb b (rev ds).

Definition to_digits (b : N) (n : N) : list N :=
  rev (to_lsb (N.to_nat (N.size n)) b n).

(** The leading zero digits of a digit string, and what follows them. *)
Fixpoint leading_zeros (ds : list N) : nat :=
  match ds with
  | 0 :: ds' => S (leading_zeros ds')
  | _ => O
  end.

Fixpoint strip_zeros (ds : list N) : list N :=
  match ds with
  | 0 :: ds' => strip_zeros ds'
  | _ => ds
  end.

(** Change of base with the leading zero digits kept one for one. *)
Definition convert (from to : N) (ds : list N) : list N :=
  repeat 0 (leading_zeros ds) ++ to_digits to (of_digits from ds).

(** A digit string, least significant digit first, is in normal form
    when its digits are below the base and its last digit is not zero. *)
Definition normal (b : N) (ds : list N) : Prop :=
  Forall (fun d => d < b) ds /\ last ds 1 <> 0.

End Radix.

(* ================================================================== *)
(** ** Base 58 *)
(* ================================================================== *)

Module Base58.

Definition ALPHABET : string :=
  "123456789ABCDEFGHJKLMNPQRSTUVWXYZabcdefghijkmnopqrstuvwxyz".

Definition char_of_digit (d : N) : ascii :=
  nth (N.to_nat d) (list_ascii_of_string ALPHABET) "1"%char.

Fixpoint index_of (c : ascii) (l : list ascii) (i : N) : option N :=
  match l with
  | [] => None
  | a :: l' => if Ascii.eqb a c then Some i else index_of c l' (N.succ i)
  end.

Definition digit_of_char (c : ascii) : option N :=
  index_of c (list_ascii_of_string ALPHABET) 0%N.

Fixpoint digits_of_chars (cs : list ascii) : option (list N) :=
  match cs with
  | [] => Some []
  | c :: cs' =>
      match digit_of_char c, digits_of_chars cs' with
      | Some d, Some ds => Some (d :: ds)
      | _, _ => None
      end
  end.

(** Modelled from the spec: the base-58 text encoding "with
    leading-zero-byte preservation" of the third-party package behind
    [bs58check], which is not among the sources. Every leading [0x00]
    byte becomes one leading ['1']; the rest is the big-endian number
    written in base 58. *)
Definition encode (buf : Buffer) : string :=
  string_of_list_ascii
    (map char_of_digit (Radix.convert 256 58 (map Byte.to_N buf))).

(** Modelled from the spec: the inverse of [encode]; [None] when the
    string holds a character outside the alphabet. *)
Definition decode (s : string) : option Buffer :=
  match digits_of_chars (list_ascii_of_string s) with
  | Some ds => Some (map byte_of_N (Radix.convert 58 256 ds))
  | None => None
  end.

End Base58.

(* ================================================================== *)
(** ** bitcoinjs-lib: scripts and the transaction container *)
(* ================================================================== *)

(** [n] as [k] little-endian bytes. *)
Fixpoint le_bytes (k : nat) (n : Z) : Buffer :=
  match k with
  | O => []
  | S k' => byte_of_Z (n mod 256) :: le_bytes k' (n / 256)
  end.

Module Script.

Definition OP_PUSHDATA1 : Z := 76.
Definition OP_PUSHDATA2 : Z := 77.
Definition OP_PUSHDATA4 : Z := 78.
Definition OP_DUP : Z := 118.
Definition OP_EQUALVERIFY : Z := 136.
Definition OP_HASH160 : Z := 169.
Definition OP_CHECKSIG : Z := 172.

(** The push opcode(s) announcing [len] bytes of data. *)
Definition pushDataInt (len : Z) : Buffer :=
  if len <? OP_PUSHDATA1 then [byte_of_Z len]
  else if len <? 255 then [byte_of_Z OP_PUSHDATA1; byte_of_Z len]
  else if len <? 65535 then byte_of_Z OP_PUSHDATA2 :: le_bytes 2 len
  else byte_of_Z OP_PUSHDATA4 :: le_bytes 4 len.

Definition push (data : Buffer) : Buffer :=
  pushDataInt (Z.of_nat (length data)) ++ data.

(** [script.pubKeyHashOutput(hash)]:
    OP_DUP OP_HASH160 <hash> OP_EQUALVERIFY OP_CHECKSIG. *)
Definition pubKeyHashOutput (pubKeyHash : Buffer) : Buffer :=
  [byte_of_Z OP_DUP; byte_of_Z OP_HASH160] ++ push pubKeyHash
    ++ [byte_of_Z OP_EQUALVERIFY; byte_of_Z OP_CHECKSIG].

(** [script.pubKeyHashInput(signature, pubKey)]: <signature> <pubKey>. *)
Definition pubKeyHashInput (signature pubKey : Buffer) : Buffer :=
  push signature ++ push pubKey.

(** [address.toOutputScript(addr)] for a pay-to-public-key-hash address:
    the base-58 text is decoded, the version byte and the four checksum
    bytes are taken off, and the 20 bytes between them go into the
    pay-to-public-key-hash template. The library's checksum and version
    checks are not repeated here: the one address this module passes is
    the compiled-in [EXODUS_ADDRESS], on which they succeed. *)
Definition toOutputScript (addr : string) : Buffer :=
  match Base58.decode addr with
  | Some buf => pubKeyHashOutput (firstn 20 (skipn 1 buf))
  | None => []
  end.

End Script.

Module Input.
Record t : Type := mk {
  hash : Buffer;
  index : N;
  script : Buffer;
  sequence : Z
}.
End Input.

Module Output.
Record t : Type := mk {
  script : Buffer;
  value : number
}.
End Output.

Module Transaction.

Record t : Type := mk {
  version : Z;
  locktime : Z;
  ins : list Input.t;
  outs : list Output.t
}.

Definition DEFAULT_SEQUENCE : Z := 4294967295.
Definition SIGHASH_ALL : Z := 1.

(** [new Transaction()]. *)
Definition new : t := mk 1 0 [] [].

(** [tx.addInput(hash, index)]: one more input at the end, with an
    empty unlocking script. *)
Definition addInput (tx : t) (hash : Buffer) (index : N) : t :=
  mk (version tx) (locktime tx)
     (ins tx ++ [Input.mk hash index [] DEFAULT_SEQUENCE])
     (outs tx).

(** [tx.addOutput(scriptPubKey, value)]: one more output at the end. *)
Definition addOutput (tx : t) (scriptPubKey : Buffer) (value : number) : t :=
  mk (version tx) (locktime tx) (ins tx)
     (outs tx ++ [Output.mk scriptPubKey value]).

Definition varIntSize (n : Z) : Z :=
  if n <? 253 then 1
  else if n <? 65536 then 3
  else if n <? 4294967296 then 5
  else 9.

Definition scriptSize (someScript : Buffer) : Z :=
  let length := Z.of_nat (length someScript) in
  varIntSize length + length.

(** [tx.byteLength()]: the length of the legacy serialisation. *)
Definition byteLength (tx : t) : Z :=
  8 + varIntSize (Z.of_nat (length (ins tx)))
    + varIntSize (Z.of_nat (length (outs tx)))
    + fold_left (fun sum input => sum + 40 + scriptSize (Input.script input))
                (ins tx) 0
    + fold_left (fun sum output => sum + 8 + scriptSize (Output.script output))
                (outs tx) 0.

(** [tx.outs[i].value = v]; nothing changes when there is no such
    output (the callers below look the output up first). *)
Fixpoint set_value (os : list Output.t) (i : nat) (v : number) : list Output.t :=
  match os, i with
  | [], _ => []
  | o :: os', O => Output.mk (Output.script o) v :: os'
  | o :: os', S i' => o :: set_value os' i' v
  end.

Definition setOutValue (tx : t) (i : nat) (v : number) : t :=
  mk (version tx) (locktime tx) (ins tx) (set_value (outs tx) i v).

(** [tx.ins[i].script = s]. *)
Fixpoint set_script (xs : list Input.t) (i : nat) (s : Buffer) : list Input.t :=
  match xs, i with
  | [], _ => []
  | x :: xs', O =>
      Input.mk (Input.hash x) (Input.index x) s (Input.sequence x) :: xs'
  | x :: xs', S i' => x :: set_script xs' i' s
  end.

Definition setInScript (tx : t) (i : nat) (s : Buffer) : t :=
  mk (version tx) (locktime tx) (set_script (ins tx) i s) (outs tx).

End Transaction.

(* ================================================================== *)
(** ** secp256k1: low-S normalisation and DER export *)
(* ================================================================== *)

Module Secp256k1.

(** The order of the group of the curve. *)
Definition n : Z :=
  0xFFFFFFFFFFFFFFFFFFFFFFFFFFFFFFFEBAAEDCE6AF48A03BBFD25E8CD0364141.

(** Half the order, rounded down. *)
Definition nh : Z := Z.shiftr n 1.

(** Big-endian value of a byte string. *)
Definition be_to_Z (bs : Buffer) : Z :=
  fold_left (fun acc b => 256 * acc + byte_to_Z b) bs 0.

(** [z] as [k] big-endian bytes. *)
Definition be_bytes (k : nat) (z : Z) : Buffer := rev (le_bytes k z).

(** A signature is 64 bytes: [r] then [s], 32 big-endian bytes each. *)
Definition sig_r (signature : Buffer) : Z := be_to_Z (firstn 32 signature).
Definition sig_s (signature : Buffer) : Z := be_to_Z (skipn 32 signature).

(** Modelled from the spec: [secp256k1.signatureNormalize], of a
    third-party package that is not among the sources: "if S >
    curve_order/2, replace S with curve_order - S". *)
Definition signatureNormalize (signature : Buffer) : Buffer :=
  if sig_s signature >? nh
  then firstn 32 signature ++ be_bytes 32 (n - sig_s signature)
  else signature.

(** The shortest two's-complement form of a non-negative integer given
    with a leading zero byte: zero bytes are dropped from the front while
    the byte after them has its top bit clear. *)
Fixpoint der_strip (bs : Buffer) : Buffer :=
  match bs with
  | b0 :: ((b1 :: _) as rest) =>
      if (byte_to_Z b0 =? 0) && (byte_to_Z b1 <? 128)
      then der_strip rest else bs
  | _ => bs
  end.

Definition der_integer (bs : Buffer) : Buffer :=
  let body := der_strip (Byte.x00 :: bs) in
  [byte_of_Z 2; byte_of_Z (Z.of_nat (length body))] ++ body.

(** Modelled from the spec: [secp256k1.signatureExport], of a
    third-party package that is not among the sources: "encode the
    signature in DER form", a SEQUENCE of the two INTEGERs [r] and [s]. *)
Definition signatureExport (signature : Buffer) : Buffer :=
  let r := der_integer (firstn 32 signature) in
  let s := der_integer (skipn 32 signature) in
  [byte_of_Z 48; byte_of_Z (Z.of_nat (length r + length s))] ++ r ++ s.

(** Reading a DER signature back: the values of its two INTEGERs. *)
Definition der_read_integer (bs : Buffer) : option (Z * Buffer) :=
  match bs with
  | tag :: len :: rest =>
      if byte_to_Z tag =? 2 then
        let k := Z.to_nat (byte_to_Z len) in
        if (k <=? length rest)%nat
        then Some (be_to_Z (firstn k rest), skipn k rest)
        else None
      else None
  | _ => None
  end.

Definition signatureImport (der : Buffer) : option (Z * Z) :=
  match der with
  | tag :: len :: body =>
      if (byte_to_Z tag =? 48) && (byte_to_Z len =? Z.of_nat (length body)) then
        match der_read_integer body with
        | Some (r, rest) =>
            match der_read_integer rest with
            | Some (s, []) => Some (r, s)
            | _ => None
            end
        | None => None
        end
      else None
  | _ => None
  end.

End Secp256k1.

(* ================================================================== *)
(** ** What the module takes from its environment *)
(* ================================================================== *)

(** The collaborators whose results the module only passes on: the
    [NODE_ENV] switch, the two hash functions of [./hash.js] (not among the
    sources), the legacy signature hash of bitcoinjs-lib and the ECDSA
    signing primitive of secp256k1, which returns 64 bytes ([r] then
    [s]). *)
Class Platform : Type := {
  DEV : bool;
  sha2 : Buffer -> Buffer;
  ripemd160 : Buffer -> Buffer;
  hashForSignature : Transaction.t -> nat -> Buffer -> Z -> Buffer;
  secp256k1_sign : Buffer -> Buffer -> Buffer
}.

(* ================================================================== *)
(** ** bs58check *)
(* ================================================================== *)

Module Bs58check.

Inductive DecodeError : Type :=
| NonBase58Character
| InvalidChecksum.

(** Modelled from the spec: the checksum of [bs58check], a third-party
    package that is not among the sources: "a 4-byte checksum derived
    from double-applying the first hash function to the versioned
    payload". *)
Definition checksum `{Platform} (payload : Buffer) : Buffer :=
  firstn 4 (sha2 (sha2 payload)).

(** Modelled from the spec: [bs58check.encode]: the payload followed by
    its checksum, in base 58. *)
Definition encode `{Platform} (payload : Buffer) : string :=
  Base58.encode (payload ++ checksum payload).

(** Modelled from the spec: [bs58check.decode]: "Decoding is the inverse
    and must validate the checksum, failing with an InvalidChecksum error
    on mismatch". The last four bytes are the checksum, what precedes
    them is the payload. *)
Definition decode `{Platform} (s : string) : DecodeError + Buffer :=
  match Base58.decode s with
  | None => inl NonBase58Character
  | Some buf =>
      let k := (length buf - 4)%nat in
      let payload := firstn k buf in
      if Buffer_eqb (skipn k buf) (checksum payload)
      then inr payload
      else inl InvalidChecksum
  end.

End Bs58check.

(* ================================================================== *)
(** ** Failures and the record of library calls *)
(* ================================================================== *)

(** What [createFinalTx] throws. The three [Error]s of the source carry
    the quantities their messages print; [TypeError] is what reading a
    property of a missing array element raises. *)
Inductive Error : Type :=
| InsufficientAggregateAmount (minimum actual : number)
| InvalidFeeRate
| FeeExceedsAvailableFunds (txLength : number) (feeRate : jsval)
                           (feeAmount : number) (outputAmount : number)
| TypeError.

(** The calls into bitcoinjs-lib's transaction object and into secp256k1,
    in the order they are made. *)
Inductive Call : Type :=
| NewTransaction
| AddInput (hash : Buffer) (index : N)
| AddOutput (scriptPubKey : Buffer) (value : number)
| ByteLength (tx : Transaction.t)
| HashForSignature (tx : Transaction.t) (inIndex : nat)
                   (prevOutScript : Buffer) (hashType : Z)
| Secp256k1Sign (message privateKey : Buffer).

(** A computation that may throw and that records the calls it makes. *)
Definition M (A : Type) : Type := (Error + A) * list Call.

Definition ret {A} (a : A) : M A := (inr a, []).

Definition throw {A} (e : Error) : M A := (inl e, []).

Definition bind {A B} (m : M A) (k : A -> M B) : M B :=
  match m with
  | (inl e, calls) => (inl e, calls)
  | (inr a, calls) => let (r, calls') := k a in (r, calls ++ calls')
  end.

(** A library call with its result. *)
Definition call {A} (c : Call) (result : A) : M A := (inr result, [c]).

(** The computation [m] once the calls [calls] have been made. *)
Definition after {A} (calls : list Call) (m : M A) : M A :=
  (fst m, calls ++ snd m).

Notation "x <- m ;; k" := (bind m (fun x => k))
  (at level 61, m at next level, right associativity).

(** [for (let x of xs) ...] with the loop's state threaded through. *)
Fixpoint foldM {A S} (body : S -> A -> M S) (xs : list A) (s : S) : M S :=
  match xs with
  | [] => ret s
  | x :: xs' => s' <- body s x ;; foldM body xs' s'
  end.

(** [xs[i]] followed by a property access: a [TypeError] out of range. *)
Definition at_index {A} (xs : list A) (i : nat) : M A :=
  match nth_error xs i with
  | Some x => ret x
  | None => throw TypeError
  end.

(* ================================================================== *)
(** ** [src/bitcoin.js] *)
(* ================================================================== *)

Record Utxo : Type := {
  tx_hash : string;
  tx_output_n : N;
  value : number;
  script : string
}.

Record Wallet : Type := {
  addresses_cosmos : string;
  privateKeys_bitcoin : Buffer;
  publicKeys_bitcoin : Buffer
}.

Record Result : Type := {
  tx : Transaction.t;
  paidAmount : number;
  feeAmount : number;
  atomAmount : number
}.

Definition EXODUS_ADDRESS : string := "1EaV33reN8XWWUfs5jkbGMD399vie5KQc4".

Definition MINIMUM_AMOUNT `{Platform} : number :=
  of_Z (if DEV then 60000 else 1000000).

Definition ATOMS_PER_BTC : number := of_Z 2000.

Definition MINIMUM_OUTPUT : number := of_Z 1000.

Definition getAddress `{Platform} (pub : Buffer) : string :=
  let pubkeyHash := ripemd160 (sha2 pub) in
  let payload := concat (byte 0) pubkeyHash in
  Bs58check.encode payload.

Definition sign `{Platform} (privKey sigHash : Buffer) : M Buffer :=
  signature <- call (Secp256k1Sign sigHash privKey)
                    (secp256k1_sign sigHash privKey) ;;
  let signature := Secp256k1.signatureNormalize signature in
  ret (Secp256k1.signatureExport signature).

(** [for (let input of inputs) inputAmount += input.value]. *)
Definition inputAmount (inputs : list Utxo) : number :=
  fold_left (fun inputAmount input => add inputAmount (value input))
            inputs zero.

(** The sum of a list of integer amounts. *)
Definition total (satoshis : list Z) : Z := fold_right Z.add 0 satoshis.

(** The body of the signing loop, for input [i]. *)
Definition signInput `{Platform} (utxos : list Utxo) (privKey pubKey : Buffer)
    (sigHashType : Z) (tx : Transaction.t) (i : nat) : M Transaction.t :=
  input <- at_index (Transaction.ins tx) i ;;
  prevOut <- at_index utxos i ;;
  let scriptPubKey := Buffer_from_hex (script prevOut) in
  sigHash <- call (HashForSignature tx i scriptPubKey sigHashType)
                  (hashForSignature tx i scriptPubKey sigHashType) ;;
  signature <- sign privKey sigHash ;;
  let signature := concat signature (byte sigHashType) in
  ret (Transaction.setInScript tx i (Script.pubKeyHashInput signature pubKey)).

Definition createFinalTx `{Platform} (wallet : Wallet) (inputs : list Utxo)
    (feeRate : jsval) : M Result :=
  let utxos := inputs in
  let amount := inputAmount inputs in
  if ltb amount MINIMUM_AMOUNT then
    throw (InsufficientAggregateAmount MINIMUM_AMOUNT amount)
  else if negb (truthy feeRate) || ltb (to_number feeRate) zero then
    throw InvalidFeeRate
  else
    tx <- call NewTransaction Transaction.new ;;
    (* add inputs from intermediate tx *)
    tx <- foldM (fun tx output =>
                   let txid := Buffer_from_hex (tx_hash output) in
                   call (AddInput txid (tx_output_n output))
                        (Transaction.addInput tx txid (tx_output_n output)))
                utxos tx ;;
    (* pay to exodus address *)
    let payToExodus := Script.toOutputScript EXODUS_ADDRESS in
    tx <- call (AddOutput payToExodus amount)
               (Transaction.addOutput tx payToExodus amount) ;;
    (* output to specify user's Cosmos address *)
    let cosmosAddress := Buffer_from_hex (addresses_cosmos wallet) in
    let specifyCosmosAddress := Script.pubKeyHashOutput cosmosAddress in
    tx <- call (AddOutput specifyCosmosAddress MINIMUM_OUTPUT)
               (Transaction.addOutput tx specifyCosmosAddress MINIMUM_OUTPUT) ;;
    (* deduct fee from exodus output *)
    len <- call (ByteLength tx) (Transaction.byteLength tx) ;;
    let feeAmount := mul (of_Z len) (to_number feeRate) in
    out0 <- at_index (Transaction.outs tx) 0 ;;
    if ltb (sub (Output.value out0) feeAmount) MINIMUM_OUTPUT then
      len' <- call (ByteLength tx) (Transaction.byteLength tx) ;;
      out0' <- at_index (Transaction.outs tx) 0 ;;
      throw (FeeExceedsAvailableFunds (of_Z len') feeRate feeAmount
                                      (Output.value out0'))
    else
      out0 <- at_index (Transaction.outs tx) 0 ;;
      let tx := Transaction.setOutValue tx 0 (sub (Output.value out0) feeAmount) in
      (* sign inputs *)
      let privKey := privateKeys_bitcoin wallet in
      let pubKey := publicKeys_bitcoin wallet in
      let sigHashType := Transaction.SIGHASH_ALL in
      tx <- foldM (signInput utxos privKey pubKey sigHashType)
                  (seq 0 (length (Transaction.ins tx))) tx ;;
      let paidAmount := amount in
      out0 <- at_index (Transaction.outs tx) 0 ;;
      let atomAmount :=
        div (mul (Output.value out0) ATOMS_PER_BTC) (of_Z 100000000) in
      ret {| tx := tx; paidAmount := paidAmount;
             feeAmount := feeAmount; atomAmount := atomAmount |}.

(* ================================================================== *)
(** ** A platform and inputs to run the module on *)
(* ================================================================== *)

Definition pad_to (k : nat) (b : Buffer) : Buffer :=
  firstn k (b ++ repeat Byte.x00 k).

(** Stand-ins of the right shapes for the hash functions and the signing
    primitive; the signature's [s] half is the private key, so a key above
    half the group order exercises the normalisation. *)
#[local] Instance example_platform : Platform := {
  DEV := false;
  sha2 := fun b => pad_to 32 (rev b);
  ripemd160 := fun b => pad_to 20 b;
  hashForSignature := fun tx i prevOutScript hashType =>
    pad_to 32 (byte (Z.of_nat i) ++ prevOutScript);
  secp256k1_sign := fun message privateKey =>
    pad_to 32 message ++ pad_to 32 privateKey
}.

Definition example_wallet : Wallet := {|
  addresses_cosmos := "00112233445566778899aabbccddeeff00112233";
  privateKeys_bitcoin := repeat (byte_of_Z 192) 32;
  publicKeys_bitcoin := byte_of_Z 2 :: repeat (byte_of_Z 17) 32
|}.

Definition example_utxo (n : N) (satoshis : Z) : Utxo := {|
  tx_hash := "aa000000000000000000000000000000000000000000000000000000000000bb";
  tx_output_n := n;
  value := of_Z satoshis;
  script := "76a914000102030405060708090a0b0c0d0e0f1011121388ac"
|}.

(** Two outputs of 700,000 and 400,000 satoshis. *)
Definition example_inputs : list Utxo :=
  [example_utxo 0 700000; example_utxo 1 400000].

(* ================================================================== *)
(** ** The states [createFinalTx] goes through, in closed form *)
(* ================================================================== *)

(** The input [tx.addInput] appends for a utxo. *)
Definition inputOf (u : Utxo) : Input.t :=
  Input.mk (Buffer_from_hex (tx_hash u)) (tx_output_n u) []
           Transaction.DEFAULT_SEQUENCE.

Definition payToExodus : Buffer := Script.toOutputScript EXODUS_ADDRESS.

Definition specifyCosmosAddress (wallet : Wallet) : Buffer :=
  Script.pubKeyHashOutput (Buffer_from_hex (addresses_cosmos wallet)).

(** The transaction when its byte length is taken: every input unsigned,
    both outputs appended, nothing deducted yet. *)
Definition unsignedTx (wallet : Wallet) (inputs : list Utxo) : Transaction.t :=
  Transaction.mk 1 0 (map inputOf inputs)
    [Output.mk payToExodus (inputAmount inputs);
     Output.mk (specifyCosmosAddress wallet) MINIMUM_OUTPUT].

(** [tx.byteLength() * feeRate] on that transaction. *)
Definition feeOf (wallet : Wallet) (inputs : list Utxo) (feeRate : jsval) : number :=
  mul (of_Z (Transaction.byteLength (unsignedTx wallet inputs)))
      (to_number feeRate).

(** The transaction once the fee has been taken off the first output. *)
Definition deductedTx (wallet : Wallet) (inputs : list Utxo) (feeRate : jsval)
  : Transaction.t :=
  Transaction.setOutValue (unsignedTx wallet inputs) 0
    (sub (inputAmount inputs) (feeOf wallet inputs feeRate)).

(** The digest signed for input [i] when the transaction is in state [tx],
    and the unlocking script made from it. *)
Definition digestOf `{Platform} (u : Utxo) (tx : Transaction.t) (i : nat) : Buffer :=
  hashForSignature tx i (Buffer_from_hex (script u)) Transaction.SIGHASH_ALL.

Definition derSignature `{Platform} (privKey sigHash : Buffer) : Buffer :=
  Secp256k1.signatureExport
    (Secp256k1.signatureNormalize (secp256k1_sign sigHash privKey)).

Definition unlockingOf `{Platform} (wallet : Wallet) (u : Utxo)
    (tx : Transaction.t) (i : nat) : Buffer :=
  Script.pubKeyHashInput
    (concat (derSignature (privateKeys_bitcoin wallet) (digestOf u tx i))
            (byte Transaction.SIGHASH_ALL))
    (publicKeys_bitcoin wallet).

(** The transaction after the first [k] rounds of the signing loop. *)
Fixpoint signedUpTo `{Platform} (wallet : Wallet) (inputs : list Utxo)
    (tx0 : Transaction.t) (k : nat) : Transaction.t :=
  match k with
  | O => tx0
  | S k' =>
      let tx := signedUpTo wallet inputs tx0 k' in
      match nth_error inputs k' with
      | Some u => Transaction.setInScript tx k' (unlockingOf wallet u tx k')
      | None => tx
      end
  end.

(** The calls of the first [k] rounds of the signing loop. *)
Fixpoint signingCalls `{Platform} (wallet : Wallet) (inputs : list Utxo)
    (tx0 : Transaction.t) (k : nat) : list Call :=
  match k with
  | O => []
  | S k' =>
      let tx := signedUpTo wallet inputs tx0 k' in
      signingCalls wallet inputs tx0 k' ++
      match nth_error inputs k' with
      | Some u =>
          [HashForSignature tx k' (Buffer_from_hex (script u))
                            Transaction.SIGHASH_ALL;
           Secp256k1Sign (digestOf u tx k') (privateKeys_bitcoin wallet)]
      | None => []
      end
  end.

(** The calls that build the transaction, up to the second output. *)
Definition constructionCalls (wallet : Wallet) (inputs : list Utxo) : list Call :=
  NewTransaction
    :: map (fun u => AddInput (Buffer_from_hex (tx_hash u)) (tx_output_n u)) inputs
    ++ [AddOutput payToExodus (inputAmount inputs);
        AddOutput (specifyCosmosAddress wallet) MINIMUM_OUTPUT].

(* ================================================================== *)
(** * Properties *)
(* ================================================================== *)

(** ** Comparisons of doubles *)

Lemma compare_cont_antisym (p q : positive) (c : comparison) :
  Pos.compare_cont (CompOpp c) q p = CompOpp (Pos.compare_cont c p q).
Proof. symmetry. apply Pos.compare_cont_antisym. Qed.

Lemma SFcompare_swap (x y : number) :
  SFcompare y x = option_map CompOpp (SFcompare x y).
Proof.
  destruct x as [sx|sx| |sx mx ex], y as [sy|sy| |sy my ey]; simpl;
    try reflexivity;
    try (destruct sx; reflexivity); try (destruct sy; reflexivity);
    try (destruct sx, sy; reflexivity).
  destruct sx, sy; simpl; try reflexivity;
    rewrite (Z.compare_antisym ex ey);
    destruct (ex ?= ey); simpl; try reflexivity;
    change Eq with (CompOpp Eq) at 1;
    rewrite compare_cont_antisym; simpl;
    try rewrite CompOpp_involutive; reflexivity.
Qed.

Lemma leb_not_ltb (x y : number) : leb x y = true -> ltb y x = false.
Proof.
  unfold leb, ltb, SFleb, SFltb. rewrite (SFcompare_swap x y).
  destruct (SFcompare x y) as [[ | | ]|]; simpl; congruence.
Qed.

Lemma not_ltb_leb (x y : number) :
  is_nan x = false -> is_nan y = false -> ltb x y = false -> leb y x = true.
Proof.
  unfold leb, ltb, SFleb, SFltb. rewrite (SFcompare_swap x y).
  destruct x as [sx|sx| |sx mx ex], y as [sy|sy| |sy my ey]; simpl;
    try discriminate; intros _ _;
    try destruct sx; try destruct sy; simpl; try congruence;
    destruct (ex ?= ey); simpl; try congruence;
    destruct (Pos.compare_cont Eq mx my); simpl; congruence.
Qed.

(** [!x || x < 0] is the negation of [0 < x], on every double. *)
Lemma falsy_or_negative (x : number) :
  negb (to_boolean x) || ltb x zero = negb (ltb zero x).
Proof. destruct x as [s|s| |s m e]; try destruct s; reflexivity. Qed.

Lemma positive_shape (x : number) :
  ltb zero x = true ->
  x = S754_infinity false \/ exists m e, x = S754_finite false m e.
Proof.
  destruct x as [s|s| |s m e]; try destruct s; try discriminate; eauto.
Qed.

(** ** Rounding never yields NaN, and keeps integers of moderate size away
    from zero *)

Lemma shr_1_nonneg (mrs : shr_record) : 0 <= shr_m mrs -> 0 <= shr_m (shr_1 mrs).
Proof.
  destruct mrs as [m r s]; simpl.
  destruct m as [|[p|p|]|[p|p|]]; simpl; lia.
Qed.

Lemma iter_pos_shr_1_nonneg (p : positive) (mrs : shr_record) :
  0 <= shr_m mrs -> 0 <= shr_m (iter_pos shr_1 p mrs).
Proof.
  revert mrs; induction p; intros mrs H; simpl; auto using shr_1_nonneg.
Qed.

Lemma shr_fexp_nonneg (m e : Z) (l : location) :
  0 <= m -> 0 <= shr_m (fst (shr_fexp prec emax m e l)).
Proof.
  intros H. unfold shr_fexp, shr.
  assert (H0 : 0 <= shr_m (shr_record_of_loc m l))
    by (destruct l as [|[ | | ]]; exact H).
  destruct (fexp prec emax (Zdigits2 m + e) - e); simpl; auto.
  now apply iter_pos_shr_1_nonneg.
Qed.

Lemma round_nearest_even_nonneg (m : Z) (l : location) :
  0 <= m -> 0 <= round_nearest_even m l.
Proof.
  intros H. destruct l as [|[ | | ]]; simpl; try lia.
  destruct (Z.even m); lia.
Qed.

Lemma binary_round_aux_not_nan (s : bool) (m e : Z) (l : location) :
  0 <= m -> is_nan (binary_round_aux prec emax s m e l) = false.
Proof.
  intros H. unfold binary_round_aux.
  pose proof (shr_fexp_nonneg m e l H) as H1.
  destruct (shr_fexp prec emax m e l) as [mrs' e']; simpl in H1.
  pose proof (shr_fexp_nonneg _ e' loc_Exact
                (round_nearest_even_nonneg _ (loc_of_shr_record mrs') H1)) as H2.
  destruct (shr_fexp prec emax _ e' loc_Exact) as [mrs'' e'']; simpl in H2.
  destruct (shr_m mrs''); try lia; try reflexivity.
  destruct (e'' <=? emax - prec); reflexivity.
Qed.

Lemma binary_round_not_nan (s : bool) (m : positive) (e : Z) :
  is_nan (binary_round prec emax s m e) = false.
Proof.
  unfold binary_round. destruct (shl_align _ _ _) as [mz ez].
  apply binary_round_aux_not_nan; lia.
Qed.

Lemma binary_normalize_not_nan (m e : Z) (sz : bool) :
  is_nan (binary_normalize prec emax m e sz) = false.
Proof. destruct m; simpl; auto using binary_round_not_nan. Qed.

Lemma of_Z_not_nan (z : Z) : is_nan (of_Z z) = false.
Proof. apply binary_normalize_not_nan. Qed.

Lemma sub_not_nan (x y : number) :
  is_finite x = true -> is_nan y = false -> is_nan (sub x y) = false.
Proof.
  destruct x as [sx|sx| |sx mx ex], y as [sy|sy| |sy my ey]; simpl;
    try discriminate; intros _ _;
    try (destruct sx, sy; reflexivity); try reflexivity.
  apply binary_normalize_not_nan.
Qed.

Lemma shr_1_div2 (mrs : shr_record) :
  0 <= shr_m mrs -> shr_m (shr_1 mrs) = Z.div2 (shr_m mrs).
Proof.
  destruct mrs as [m r s]; simpl.
  destruct m as [|[p|p|]|[p|p|]]; simpl; intros H; try reflexivity; lia.
Qed.

Lemma iter_pos_shr_1_shiftr (k : positive) (mrs : shr_record) :
  0 <= shr_m mrs ->
  shr_m (iter_pos shr_1 k mrs) = Z.shiftr (shr_m mrs) (Zpos k).
Proof.
  revert mrs; induction k as [k IH|k IH|]; intros mrs H; simpl iter_pos.
  - rewrite IH, IH, shr_1_div2, Z.div2_spec, !Z.shiftr_shiftr by
      (auto using iter_pos_shr_1_nonneg, shr_1_nonneg; lia).
    f_equal; lia.
  - rewrite IH, IH, !Z.shiftr_shiftr by
      (auto using iter_pos_shr_1_nonneg; lia).
    f_equal; lia.
  - now rewrite shr_1_div2, Z.div2_spec.
Qed.

Lemma digits2_pos_size (p : positive) : digits2_pos p = Pos.size p.
Proof. induction p; simpl; congruence. Qed.

Lemma digits2_pos_le (p : positive) : 2 ^ (Zpos (digits2_pos p) - 1) <= Zpos p.
Proof.
  rewrite digits2_pos_size.
  pose proof (Pos.size_le p) as H.
  apply Pos2Z.pos_le_pos in H. rewrite Pos2Z.inj_pow in H.
  change (Zpos p~0) with (2 * Zpos p) in H.
  replace (Zpos (Pos.size p)) with (Z.succ (Zpos (Pos.size p) - 1)) in H by lia.
  rewrite Z.pow_succ_r in H by lia. lia.
Qed.

(** Shifting to the working precision keeps a positive mantissa positive
    as long as the exponent stays in the normal range. *)
Lemma shr_fexp_pos (m e : Z) (l : location) :
  0 < m -> -1022 <= e ->
  0 < shr_m (fst (shr_fexp prec emax m e l)) /\
  -1022 <= snd (shr_fexp prec emax m e l).
Proof.
  intros Hm He. destruct m as [|p|p]; try lia.
  unfold shr_fexp, shr. simpl Zdigits2.
  assert (Hrec : shr_m (shr_record_of_loc (Zpos p) l) = Zpos p)
    by (destruct l as [|[ | | ]]; reflexivity).
  assert (Hn : fexp prec emax (Zpos (digits2_pos p) + e) - e
               = Zpos (digits2_pos p) - 53).
  { unfold fexp, emin, prec, emax. lia. }
  rewrite Hn. clear Hn.
  destruct (Zpos (digits2_pos p) - 53) as [|k|k] eqn:Hk; simpl;
    rewrite ?Hrec; try (split; lia).
  rewrite iter_pos_shr_1_shiftr, Hrec by (rewrite Hrec; lia).
  split; [|lia].
  rewrite Z.shiftr_div_pow2 by lia.
  apply Z.div_str_pos. split; [apply Z.pow_pos_nonneg; lia|].
  pose proof (digits2_pos_le p) as Hd.
  eapply Z.le_trans; [|exact Hd].
  apply Z.pow_le_mono_r; lia.
Qed.

Lemma round_nearest_even_ge (m : Z) (l : location) : m <= round_nearest_even m l.
Proof.
  destruct l as [|[ | | ]]; simpl; try lia. destruct (Z.even m); lia.
Qed.

Lemma binary_round_aux_pos (s : bool) (m e : Z) (l : location) :
  0 < m -> -1022 <= e ->
  binary_round_aux prec emax s m e l = S754_infinity s \/
  exists m' e', binary_round_aux prec emax s m e l = S754_finite s m' e'.
Proof.
  intros Hm He. unfold binary_round_aux.
  destruct (shr_fexp_pos m e l Hm He) as [H1 H1e].
  destruct (shr_fexp prec emax m e l) as [mrs' e']; simpl in H1, H1e.
  pose proof (round_nearest_even_ge (shr_m mrs') (loc_of_shr_record mrs')) as Hr.
  destruct (shr_fexp_pos (round_nearest_even (shr_m mrs') (loc_of_shr_record mrs'))
              e' loc_Exact ltac:(lia) H1e) as [H2 _].
  destruct (shr_fexp prec emax _ e' loc_Exact) as [mrs'' e'']; simpl in H2.
  destruct (shr_m mrs''); try lia.
  destruct (e'' <=? emax - prec); eauto.
Qed.

(** A positive integer becomes a positive double (or [+Infinity]). *)
Lemma of_Z_pos (z : Z) :
  0 < z ->
  of_Z z = S754_infinity false \/ exists m e, of_Z z = S754_finite false m e.
Proof.
  intros Hz. destruct z as [|p|p]; try lia.
  unfold of_Z. simpl binary_normalize. unfold binary_round, shl_align.
  assert (Hf : fexp prec emax (Zpos (digits2_pos p) + 0) - 0
               = Zpos (digits2_pos p) - 53).
  { unfold fexp, emin, prec, emax. lia. }
  assert (Hf' : fexp prec emax (Zpos (digits2_pos p) + 0)
                = Zpos (digits2_pos p) - 53) by lia.
  rewrite Hf. rewrite Hf'.
  destruct (Zpos (digits2_pos p) - 53) eqn:Hk;
    apply binary_round_aux_pos; lia.
Qed.

Lemma mul_pos_not_nan (x y : number) :
  (x = S754_infinity false \/ exists m e, x = S754_finite false m e) ->
  (y = S754_infinity false \/ exists m e, y = S754_finite false m e) ->
  is_nan (mul x y) = false.
Proof.
  intros [->|(mx & ex & ->)] [->|(my & ey & ->)]; try reflexivity.
  apply binary_round_aux_not_nan. lia.
Qed.

(** ** Integers below 2^53 are computed with exactly *)

Lemma iter_pos_nat {A} (f : A -> A) (p : positive) (x : A) :
  iter_pos f p x = Nat.iter (Pos.to_nat p) f x.
Proof.
  revert x; induction p as [p IH|p IH|]; intros x; cbn [iter_pos].
  - rewrite !IH, Pos2Nat.inj_xI.
    replace (S (2 * Pos.to_nat p))%nat
      with (Pos.to_nat p + (Pos.to_nat p + 1))%nat by lia.
    now rewrite !Nat.iter_add.
  - rewrite !IH, Pos2Nat.inj_xO.
    replace (2 * Pos.to_nat p)%nat with (Pos.to_nat p + Pos.to_nat p)%nat by lia.
    now rewrite Nat.iter_add.
  - reflexivity.
Qed.

(** Shifting out zero bits loses nothing. *)
Lemma shr_zero_bits (n : nat) (M : Z) :
  0 <= M ->
  Nat.iter n shr_1 (Build_shr_record (M * 2 ^ Z.of_nat n) false false)
  = Build_shr_record M false false.
Proof.
  revert M; induction n as [|n IH]; intros M HM.
  - change (2 ^ Z.of_nat 0) with 1. now rewrite Z.mul_1_r.
  - replace (M * 2 ^ Z.of_nat (S n)) with ((2 * M) * 2 ^ Z.of_nat n)
      by (rewrite Nat2Z.inj_succ, Z.pow_succ_r by lia; ring).
    rewrite Nat.iter_succ, IH by lia.
    destruct M as [|p|p]; try lia; reflexivity.
Qed.

Lemma Zdigits2_log2 (m : Z) : 0 < m -> Zdigits2 m = Z.log2 m + 1.
Proof.
  destruct m as [|p|p]; try lia. intros _. cbn [Zdigits2].
  rewrite digits2_pos_size. destruct p; cbn [Pos.size Z.log2]; lia.
Qed.

(** A mantissa of 53 bits followed by [k] zero bits rounds to itself. *)
Lemma binary_round_aux_exact (s : bool) (M E k : Z) :
  2 ^ 52 <= M < 2 ^ 53 -> -1074 <= E <= 971 -> 0 <= k ->
  binary_round_aux prec emax s (M * 2 ^ k) (E - k) loc_Exact
  = S754_finite s (Z.to_pos M) E.
Proof.
  intros HM HE Hk.
  assert (HlogM : Z.log2 M = 52) by (apply Z.log2_unique; lia).
  assert (Hm : 0 < M * 2 ^ k) by (apply Z.mul_pos_pos; [lia|apply Z.pow_pos_nonneg; lia]).
  assert (Hdm : Zdigits2 (M * 2 ^ k) = 53 + k).
  { rewrite Zdigits2_log2, Z.log2_mul_pow2 by lia. lia. }
  assert (HdM : Zdigits2 M = 53) by (rewrite Zdigits2_log2; lia).
  assert (H1 : shr_fexp prec emax (M * 2 ^ k) (E - k) loc_Exact
               = (Build_shr_record M false false, E)).
  { unfold shr_fexp. rewrite Hdm.
    replace (fexp prec emax (53 + k + (E - k)) - (E - k)) with k
      by (unfold fexp, emin, prec, emax; lia).
    cbn [shr_record_of_loc]. unfold shr.
    destruct k as [|kp|kp]; try lia.
    - f_equal; [f_equal|]; lia.
    - rewrite iter_pos_nat.
      replace (Zpos kp) with (Z.of_nat (Pos.to_nat kp)) at 1
        by apply positive_nat_Z.
      rewrite shr_zero_bits by lia. f_equal. lia. }
  assert (H2 : shr_fexp prec emax M E loc_Exact
               = (Build_shr_record M false false, E)).
  { unfold shr_fexp. rewrite HdM.
    replace (fexp prec emax (53 + E) - E) with 0
      by (unfold fexp, emin, prec, emax; lia).
    reflexivity. }
  unfold binary_round_aux. rewrite H1. cbn [shr_m loc_of_shr_record round_nearest_even].
  rewrite H2. cbn [shr_m].
  destruct M as [|p|p]; try lia.
  replace (E <=? emax - prec) with true
    by (symmetry; apply Z.leb_le; unfold emax, prec; lia).
  reflexivity.
Qed.

Lemma canon_mantissa (c : Z) :
  0 < c < 2 ^ 53 -> 2 ^ 52 <= c * 2 ^ (52 - Z.log2 c) < 2 ^ 53.
Proof.
  intros Hc. destruct (Z.log2_spec c ltac:(lia)) as [Hlo Hhi].
  pose proof (Z.log2_nonneg c) as Hl.
  assert (Hl' : Z.log2 c < 53) by (apply Z.log2_lt_pow2; lia).
  assert (H52 : 2 ^ 52 = 2 ^ Z.log2 c * 2 ^ (52 - Z.log2 c))
    by (rewrite <- Z.pow_add_r by lia; f_equal; lia).
  assert (H53 : 2 ^ 53 = 2 ^ Z.succ (Z.log2 c) * 2 ^ (52 - Z.log2 c))
    by (rewrite <- Z.pow_add_r by lia; f_equal; lia).
  assert (Hp : 0 < 2 ^ (52 - Z.log2 c)) by (apply Z.pow_pos_nonneg; lia).
  rewrite H52, H53. split.
  - apply Z.mul_le_mono_nonneg_r; lia.
  - apply Z.mul_lt_mono_pos_r; lia.
Qed.

Lemma pos_iter_xO (p q : positive) :
  Zpos (Pos.iter xO p q) = Zpos p * 2 ^ Zpos q.
Proof.
  induction q as [|q IH] using Pos.peano_ind.
  - cbn [Pos.iter]. change (2 ^ 1) with 2. lia.
  - rewrite Pos.iter_succ, Pos2Z.inj_xO, IH, Pos2Z.inj_succ, Z.pow_succ_r by lia.
    ring.
Qed.

(** Rounding [c * 2^k] at exponent [-k] gives the double that holds [c]. *)
Lemma binary_round_canon (s : bool) (c k : Z) :
  0 < c < 2 ^ 53 -> 0 <= k ->
  binary_round prec emax s (Z.to_pos (c * 2 ^ k)) (- k) = canon s c.
Proof.
  intros Hc Hk.
  pose proof (canon_mantissa c Hc) as HM.
  pose proof (Z.log2_nonneg c) as Hl.
  assert (Hl' : Z.log2 c < 53) by (apply Z.log2_lt_pow2; lia).
  assert (Hpos : 0 < c * 2 ^ k)
    by (apply Z.mul_pos_pos; [lia|apply Z.pow_pos_nonneg; lia]).
  assert (Hp : Zpos (Z.to_pos (c * 2 ^ k)) = c * 2 ^ k) by (apply Z2Pos.id; lia).
  set (p := Z.to_pos (c * 2 ^ k)) in *.
  assert (Hd : Zpos (digits2_pos p) = k + Z.log2 c + 1).
  { change (Zpos (digits2_pos p)) with (Zdigits2 (Zpos p)).
    rewrite Zdigits2_log2, Hp, Z.log2_mul_pow2 by lia. lia. }
  unfold binary_round, shl_align. rewrite Hd.
  replace (fexp prec emax (k + Z.log2 c + 1 + - k)) with (Z.log2 c - 52)
    by (unfold fexp, emin, prec, emax; lia).
  unfold canon.
  destruct (Z.log2 c - 52 - - k) as [|d|d] eqn:Hdiff.
  - replace (Zpos p) with (c * 2 ^ (52 - Z.log2 c) * 2 ^ 0)
      by (rewrite Hp; replace (52 - Z.log2 c) with k by lia;
          change (2 ^ 0) with 1; ring).
    replace (- k) with (Z.log2 c - 52 - 0) by lia.
    apply binary_round_aux_exact; lia.
  - replace (Zpos p) with (c * 2 ^ (52 - Z.log2 c) * 2 ^ Zpos d).
    2:{ rewrite Hp, <- Z.mul_assoc, <- Z.pow_add_r by lia.
        f_equal. f_equal. lia. }
    replace (- k) with (Z.log2 c - 52 - Zpos d) by lia.
    apply binary_round_aux_exact; lia.
  - rewrite pos_iter_xO, Hp.
    assert (Heq : c * 2 ^ k * 2 ^ Zpos d = c * 2 ^ (52 - Z.log2 c) * 2 ^ 0).
    { change (2 ^ 0) with 1.
      rewrite Z.mul_1_r, <- Z.mul_assoc, <- Z.pow_add_r by lia.
      do 2 f_equal. lia. }
    rewrite Heq.
    replace (Z.log2 c - 52) with (Z.log2 c - 52 - 0) at 1 by lia.
    apply binary_round_aux_exact; lia.
Qed.

Lemma of_Z_canon (c : Z) : 0 < c < 2 ^ 53 -> of_Z c = canon false c.
Proof.
  intros Hc. destruct c as [|p|p]; try lia.
  unfold of_Z. cbn [binary_normalize].
  rewrite <- (binary_round_canon false (Zpos p) 0) by lia.
  change (- 0) with 0. change (2 ^ 0) with 1. now rewrite Z.mul_1_r.
Qed.

Lemma of_Z_neg_canon (c : Z) : 0 < c < 2 ^ 53 -> of_Z (- c) = canon true c.
Proof.
  intros Hc. destruct c as [|p|p]; try lia.
  unfold of_Z. cbn [Z.opp binary_normalize].
  rewrite <- (binary_round_canon true (Zpos p) 0) by lia.
  change (- 0) with 0. change (2 ^ 0) with 1. now rewrite Z.mul_1_r.
Qed.

(** A mantissa [c * 2^k] at exponent [-k] normalises to the integer it
    stands for. *)
Lemma binary_normalize_exact (c k : Z) :
  - 2 ^ 53 < c < 2 ^ 53 -> 0 <= k ->
  binary_normalize prec emax (c * 2 ^ k) (- k) false = of_Z c.
Proof.
  intros Hc Hk.
  assert (Hp : 0 < 2 ^ k) by (apply Z.pow_pos_nonneg; lia).
  destruct (Z.lt_trichotomy c 0) as [Hneg|[->|Hpos]].
  - replace c with (- (- c)) by lia. rewrite of_Z_neg_canon by lia.
    rewrite <- (binary_round_canon true (- c) k) by lia.
    rewrite Z.mul_opp_l.
    destruct (- c * 2 ^ k) as [|q|q] eqn:Hq; try nia. reflexivity.
  - reflexivity.
  - rewrite of_Z_canon by lia.
    rewrite <- (binary_round_canon false c k) by lia.
    destruct (c * 2 ^ k) as [|q|q] eqn:Hq; try nia. reflexivity.
Qed.

Lemma shl_align_fst (mx : positive) (ex ez : Z) :
  ez <= ex -> Zpos (fst (shl_align mx ex ez)) = Zpos mx * 2 ^ (ex - ez).
Proof.
  intros Hle. unfold shl_align.
  destruct (ez - ex) as [|d|d] eqn:Hd; try lia.
  - replace (ex - ez) with 0 by lia. cbn [fst]. change (2 ^ 0) with 1. lia.
  - cbn [fst]. rewrite pos_iter_xO. f_equal. f_equal. lia.
Qed.

(** The mantissa of the double holding [c], brought to exponent [ez]. *)
Lemma canon_aligned (c ez : Z) :
  0 < c < 2 ^ 53 -> ez <= Z.log2 c - 52 ->
  Zpos (fst (shl_align (Z.to_pos (c * 2 ^ (52 - Z.log2 c))) (Z.log2 c - 52) ez))
  = c * 2 ^ (- ez).
Proof.
  intros Hc Hez. pose proof (canon_mantissa c Hc) as HM.
  pose proof (Z.log2_nonneg c) as Hl.
  assert (Hl' : Z.log2 c < 53) by (apply Z.log2_lt_pow2; lia).
  rewrite shl_align_fst, Z2Pos.id by lia.
  rewrite <- Z.mul_assoc, <- Z.pow_add_r by lia. do 2 f_equal. lia.
Qed.

Lemma add_exact (a b : Z) :
  0 <= a -> 0 <= b -> a + b < 2 ^ 53 -> add (of_Z a) (of_Z b) = of_Z (a + b).
Proof.
  intros Ha Hb Hab.
  destruct (Z.eq_dec a 0) as [->|Ha0]; [|destruct (Z.eq_dec b 0) as [->|Hb0]].
  - destruct (Z.eq_dec b 0) as [->|Hb0]; [reflexivity|].
    rewrite Z.add_0_l, (of_Z_canon b) by lia. reflexivity.
  - rewrite Z.add_0_r, (of_Z_canon a) by lia. reflexivity.
  - rewrite (of_Z_canon a), (of_Z_canon b) by lia.
    unfold add, SFadd, canon. cbn [cond_Zopp].
    pose proof (Z.le_min_l (Z.log2 a - 52) (Z.log2 b - 52)) as Hza.
    pose proof (Z.le_min_r (Z.log2 a - 52) (Z.log2 b - 52)) as Hzb.
    set (ez := Z.min (Z.log2 a - 52) (Z.log2 b - 52)) in *.
    rewrite !canon_aligned by lia.
    assert (Hez : ez <= 0).
    { assert (Z.log2 a < 53) by (apply Z.log2_lt_pow2; lia). lia. }
    rewrite <- Z.mul_add_distr_r.
    pose proof (binary_normalize_exact (a + b) (- ez) ltac:(lia) ltac:(lia)) as E.
    now rewrite Z.opp_involutive in E.
Qed.

Lemma sub_exact (a b : Z) :
  0 <= a < 2 ^ 53 -> 0 <= b < 2 ^ 53 -> sub (of_Z a) (of_Z b) = of_Z (a - b).
Proof.
  intros Ha Hb.
  destruct (Z.eq_dec b 0) as [->|Hb0]; [|destruct (Z.eq_dec a 0) as [->|Ha0]].
  - rewrite Z.sub_0_r. destruct (Z.eq_dec a 0) as [->|Ha0]; [reflexivity|].
    rewrite (of_Z_canon a) by lia. reflexivity.
  - rewrite Z.sub_0_l, (of_Z_neg_canon b), (of_Z_canon b) by lia. reflexivity.
  - rewrite (of_Z_canon a), (of_Z_canon b) by lia.
    unfold sub, SFsub, canon. cbn [cond_Zopp].
    pose proof (Z.le_min_l (Z.log2 a - 52) (Z.log2 b - 52)) as Hza.
    pose proof (Z.le_min_r (Z.log2 a - 52) (Z.log2 b - 52)) as Hzb.
    set (ez := Z.min (Z.log2 a - 52) (Z.log2 b - 52)) in *.
    rewrite !canon_aligned by lia.
    assert (Hez : ez <= 0).
    { assert (Z.log2 a < 53) by (apply Z.log2_lt_pow2; lia). lia. }
    rewrite <- Z.mul_sub_distr_r.
    pose proof (binary_normalize_exact (a - b) (- ez) ltac:(lia) ltac:(lia)) as E.
    now rewrite Z.opp_involutive in E.
Qed.

Lemma mul_exact (a b : Z) :
  0 <= a < 2 ^ 53 -> 0 <= b < 2 ^ 53 -> a * b < 2 ^ 53 ->
  mul (of_Z a) (of_Z b) = of_Z (a * b).
Proof.
  intros [Ha Ha'] [Hb Hb'] Hab.
  destruct (Z.eq_dec a 0) as [->|Ha0]; [|destruct (Z.eq_dec b 0) as [->|Hb0]].
  - destruct (Z.eq_dec b 0) as [->|Hb0]; [reflexivity|].
    rewrite Z.mul_0_l, (of_Z_canon b) by lia. reflexivity.
  - rewrite Z.mul_0_r, (of_Z_canon a) by lia. reflexivity.
  - assert (Hc : 0 < a * b < 2 ^ 53) by nia.
    rewrite (of_Z_canon a), (of_Z_canon b), (of_Z_canon (a * b)) by lia.
    unfold mul, SFmul, canon. cbn [xorb].
    pose proof (canon_mantissa a ltac:(lia)) as HMa.
    pose proof (canon_mantissa b ltac:(lia)) as HMb.
    pose proof (canon_mantissa (a * b) Hc) as HMc.
    pose proof (Z.log2_nonneg a). pose proof (Z.log2_nonneg b).
    pose proof (Z.log2_nonneg (a * b)).
    assert (Z.log2 a < 53) by (apply Z.log2_lt_pow2; lia).
    assert (Z.log2 b < 53) by (apply Z.log2_lt_pow2; lia).
    assert (Z.log2 (a * b) < 53) by (apply Z.log2_lt_pow2; lia).
    pose proof (Z.log2_mul_below a b ltac:(lia) ltac:(lia)) as Hlog.
    rewrite Pos2Z.inj_mul, !Z2Pos.id by lia.
    set (k := 52 + Z.log2 (a * b) - Z.log2 a - Z.log2 b).
    replace (a * 2 ^ (52 - Z.log2 a) * (b * 2 ^ (52 - Z.log2 b)))
      with (a * b * 2 ^ (52 - Z.log2 (a * b)) * 2 ^ k).
    2:{ rewrite <- (Z.mul_assoc (a * b)), <- Z.pow_add_r by (unfold k; lia).
        replace (52 - Z.log2 (a * b) + k)
          with ((52 - Z.log2 a) + (52 - Z.log2 b)) by (unfold k; lia).
        rewrite Z.pow_add_r by lia. ring. }
    replace (Z.log2 a - 52 + (Z.log2 b - 52))
      with (Z.log2 (a * b) - 52 - k) by (unfold k; lia).
    apply binary_round_aux_exact; unfold k; lia.
Qed.

Lemma compare_exact (a b : Z) :
  - 2 ^ 53 < a < 2 ^ 53 -> 0 <= b < 2 ^ 53 ->
  SFcompare (of_Z a) (of_Z b) = Some (a ?= b).
Proof.
  intros Ha Hb.
  assert (Hb' : b = 0 \/ 0 < b) by lia.
  destruct (Z.lt_trichotomy a 0) as [Hneg|[->|Hpos]].
  - replace (a ?= b) with Lt by (symmetry; apply Z.compare_lt_iff; lia).
    replace a with (- (- a)) by lia. rewrite of_Z_neg_canon by lia.
    destruct Hb' as [->|Hb']; [reflexivity|].
    rewrite (of_Z_canon b) by lia. reflexivity.
  - destruct Hb' as [->|Hb']; [reflexivity|].
    replace (0 ?= b) with Lt by (symmetry; apply Z.compare_lt_iff; lia).
    rewrite (of_Z_canon b) by lia. reflexivity.
  - rewrite (of_Z_canon a) by lia.
    destruct Hb' as [->|Hb'].
    { replace (a ?= 0) with Gt by (symmetry; apply Z.compare_gt_iff; lia).
      reflexivity. }
    rewrite (of_Z_canon b) by lia. unfold canon. cbn [SFcompare]. f_equal.
    pose proof (canon_mantissa a ltac:(lia)) as HMa.
    pose proof (canon_mantissa b ltac:(lia)) as HMb.
    destruct (Z.log2_spec a Hpos) as [Hloa Hhia].
    destruct (Z.log2_spec b Hb') as [Hlob Hhib].
    pose proof (Z.log2_nonneg a). pose proof (Z.log2_nonneg b).
    rewrite Z.compare_sub, Z.sub_sub_distr.
    replace (Z.log2 a - 52 - Z.log2 b + 52) with (Z.log2 a - Z.log2 b) by lia.
    rewrite <- Z.compare_sub.
    destruct (Z.compare_spec (Z.log2 a) (Z.log2 b)) as [Heq|Hlt|Hgt].
    + change (Pos.compare_cont Eq) with Pos.compare.
      rewrite Pos2Z.inj_compare, !Z2Pos.id by lia.
      rewrite Heq.
      assert (Hlb : Z.log2 b < 53) by (apply Z.log2_lt_pow2; lia).
      assert (HP : 0 < 2 ^ (52 - Z.log2 b)) by (apply Z.pow_pos_nonneg; lia).
      destruct (Z.compare_spec a b) as [->|Hlt|Hgt].
      * apply Z.compare_refl.
      * apply Z.compare_lt_iff. now apply Z.mul_lt_mono_pos_r.
      * apply Z.compare_gt_iff. now apply Z.mul_lt_mono_pos_r.
    + symmetry. apply Z.compare_lt_iff.
      assert (2 ^ Z.succ (Z.log2 a) <= 2 ^ Z.log2 b)
        by (apply Z.pow_le_mono_r; lia).
      lia.
    + symmetry. apply Z.compare_gt_iff.
      assert (2 ^ Z.succ (Z.log2 b) <= 2 ^ Z.log2 a)
        by (apply Z.pow_le_mono_r; lia).
      lia.
Qed.

Lemma ltb_exact (a b : Z) :
  - 2 ^ 53 < a < 2 ^ 53 -> 0 <= b < 2 ^ 53 -> ltb (of_Z a) (of_Z b) = (a <? b).
Proof.
  intros Ha Hb. unfold ltb, SFltb, Z.ltb. now rewrite compare_exact.
Qed.

(** Distinct integers below 2^53 are distinct doubles. *)
Lemma of_Z_inj (a b : Z) :
  0 <= a < 2 ^ 53 -> 0 <= b < 2 ^ 53 -> of_Z a = of_Z b -> a = b.
Proof.
  intros Ha Hb Heq.
  pose proof (compare_exact a b ltac:(lia) Hb) as H1.
  pose proof (compare_exact b b ltac:(lia) Hb) as H2.
  rewrite Heq, H2, Z.compare_refl in H1. injection H1 as H1.
  symmetry in H1. now apply Z.compare_eq.
Qed.

(** ** The monad *)

Lemma bind_ret {A B} (a : A) (k : A -> M B) : bind (ret a) k = k a.
Proof. unfold bind, ret. now destruct (k a). Qed.

Lemma bind_call {A B} (c : Call) (a : A) (k : A -> M B) :
  bind (call c a) k = after [c] (k a).
Proof. unfold bind, call, after. now destruct (k a). Qed.

Lemma bind_value {A B} (a : A) (calls : list Call) (k : A -> M B) :
  bind (inr a, calls) k = after calls (k a).
Proof. unfold bind, after. now destruct (k a). Qed.

Lemma foldM_app {A S} (body : S -> A -> M S) (xs ys : list A) (s : S) :
  foldM body (xs ++ ys) s = bind (foldM body xs s) (foldM body ys).
Proof.
  revert s; induction xs as [|x xs IH]; intros s.
  - change (foldM body [] s) with (ret s). now rewrite bind_ret.
  - simpl. destruct (body s x) as [[e|s'] calls]; simpl; [reflexivity|].
    rewrite IH. destruct (foldM body xs s') as [[e|s''] calls']; simpl.
    + reflexivity.
    + destruct (foldM body ys s''). now rewrite app_assoc.
Qed.

(** ** Building the transaction *)

Section Build.

Context `{Platform}.
Variables (wallet : Wallet) (inputs : list Utxo) (feeRate : jsval).

Lemma addInput_loop (utxos : list Utxo) (tx : Transaction.t) :
  foldM (fun tx output =>
           let txid := Buffer_from_hex (tx_hash output) in
           call (AddInput txid (tx_output_n output))
                (Transaction.addInput tx txid (tx_output_n output)))
        utxos tx
  = (inr (Transaction.mk (Transaction.version tx) (Transaction.locktime tx)
                         (Transaction.ins tx ++ map inputOf utxos)
                         (Transaction.outs tx)),
     map (fun u => AddInput (Buffer_from_hex (tx_hash u)) (tx_output_n u)) utxos).
Proof.
  revert tx; induction utxos as [|u utxos IH]; intros tx; cbn [foldM map].
  - rewrite app_nil_r. now destruct tx.
  - rewrite bind_call, IH. unfold after. simpl. now rewrite <- app_assoc.
Qed.

Let tx0 := deductedTx wallet inputs feeRate.

Lemma set_script_length (xs : list Input.t) (i : nat) (s : Buffer) :
  length (Transaction.set_script xs i s) = length xs.
Proof.
  revert i; induction xs as [|x xs IH]; intros [|i]; simpl; auto.
Qed.

Lemma signedUpTo_ins_length (k : nat) x0 :
  length (Transaction.ins (signedUpTo wallet inputs x0 k))
  = length (Transaction.ins x0).
Proof.
  induction k as [|k IH]; simpl; [reflexivity|].
  destruct (nth_error inputs k); [|exact IH].
  simpl. now rewrite set_script_length.
Qed.

Lemma signedUpTo_outs (k : nat) x0 :
  Transaction.outs (signedUpTo wallet inputs x0 k) = Transaction.outs x0.
Proof.
  induction k as [|k IH]; simpl; [reflexivity|].
  destruct (nth_error inputs k); [|exact IH]. exact IH.
Qed.

Lemma sign_run (privKey sigHash : Buffer) :
  sign privKey sigHash
  = (inr (derSignature privKey sigHash), [Secp256k1Sign sigHash privKey]).
Proof. reflexivity. Qed.

Lemma signing_loop (x0 : Transaction.t) (k : nat) :
  (k <= length inputs)%nat -> (k <= length (Transaction.ins x0))%nat ->
  foldM (signInput inputs (privateKeys_bitcoin wallet)
                   (publicKeys_bitcoin wallet) Transaction.SIGHASH_ALL)
        (seq 0 k) x0
  = (inr (signedUpTo wallet inputs x0 k), signingCalls wallet inputs x0 k).
Proof.
  induction k as [|k IH]; intros Hk Hk'; [reflexivity|].
  rewrite seq_S, foldM_app, IH by lia. change (0 + k)%nat with k.
  rewrite bind_value. cbn [foldM signedUpTo signingCalls fst snd].
  unfold signInput, at_index.
  destruct (nth_error inputs k) as [u|] eqn:Hu;
    [|apply nth_error_None in Hu; lia].
  destruct (nth_error (Transaction.ins (signedUpTo wallet inputs x0 k)) k)
    as [input|] eqn:Hin;
    [|apply nth_error_None in Hin; rewrite signedUpTo_ins_length in Hin; lia].
  reflexivity.
Qed.

Lemma unsignedTx_ins_length :
  length (Transaction.ins (deductedTx wallet inputs feeRate)) = length inputs.
Proof. simpl. apply length_map. Qed.

(** What [createFinalTx] returns once the two argument checks have
    passed. *)
Lemma createFinalTx_run :
  ltb (inputAmount inputs) MINIMUM_AMOUNT = false ->
  negb (truthy feeRate) || ltb (to_number feeRate) zero = false ->
  createFinalTx wallet inputs feeRate =
  let utx := unsignedTx wallet inputs in
  let fee := feeOf wallet inputs feeRate in
  if ltb (sub (inputAmount inputs) fee) MINIMUM_OUTPUT then
    (inl (FeeExceedsAvailableFunds (of_Z (Transaction.byteLength utx))
            feeRate fee (inputAmount inputs)),
     constructionCalls wallet inputs ++ [ByteLength utx; ByteLength utx])
  else
    (inr {| tx := signedUpTo wallet inputs tx0 (length inputs);
            paidAmount := inputAmount inputs;
            feeAmount := fee;
            atomAmount := div (mul (sub (inputAmount inputs) fee) ATOMS_PER_BTC)
                              (of_Z 100000000) |},
     constructionCalls wallet inputs
       ++ ByteLength utx :: signingCalls wallet inputs tx0 (length inputs)).
Proof.
  intros Hmin Hrate. unfold createFinalTx. rewrite Hmin, Hrate.
  cbv zeta. rewrite bind_call, addInput_loop, bind_value, !bind_call.
  match goal with
  | |- context [ByteLength ?t] => change t with (unsignedTx wallet inputs)
  end.
  change (at_index (Transaction.outs (unsignedTx wallet inputs)) 0)
    with (@ret Output.t (Output.mk payToExodus (inputAmount inputs))).
  rewrite bind_ret. cbn [Output.value].
  change (mul (of_Z (Transaction.byteLength (unsignedTx wallet inputs)))
              (to_number feeRate)) with (feeOf wallet inputs feeRate).
  destruct (ltb (sub (inputAmount inputs) (feeOf wallet inputs feeRate))
                MINIMUM_OUTPUT).
  - rewrite bind_ret. unfold throw, after, constructionCalls.
    cbn [fst snd app]. now rewrite <- app_assoc.
  - rewrite ?bind_ret. cbn [Output.value].
    change (Transaction.setOutValue (unsignedTx wallet inputs) 0
              (sub (inputAmount inputs) (feeOf wallet inputs feeRate)))
      with tx0.
    unfold tx0 at 1. rewrite unsignedTx_ins_length.
    rewrite signing_loop by (unfold tx0; rewrite ?unsignedTx_ins_length; lia).
    rewrite bind_value.
    unfold at_index. rewrite signedUpTo_outs.
    change (nth_error (Transaction.outs tx0) 0)
      with (Some (Output.mk payToExodus
              (sub (inputAmount inputs) (feeOf wallet inputs feeRate)))).
    cbv beta iota. rewrite bind_ret. unfold ret, after, constructionCalls.
    cbn [fst snd app Output.value]. now rewrite app_nil_r, <- app_assoc.
Qed.

Lemma createFinalTx_success (r : Result) (calls : list Call) :
  createFinalTx wallet inputs feeRate = (inr r, calls) ->
  ltb (inputAmount inputs) MINIMUM_AMOUNT = false /\
  negb (truthy feeRate) || ltb (to_number feeRate) zero = false /\
  ltb (sub (inputAmount inputs) (feeOf wallet inputs feeRate)) MINIMUM_OUTPUT
    = false /\
  r = {| tx := signedUpTo wallet inputs tx0 (length inputs);
         paidAmount := inputAmount inputs;
         feeAmount := feeOf wallet inputs feeRate;
         atomAmount :=
           div (mul (sub (inputAmount inputs) (feeOf wallet inputs feeRate))
                    ATOMS_PER_BTC) (of_Z 100000000) |} /\
  calls = constructionCalls wallet inputs
            ++ ByteLength (unsignedTx wallet inputs)
            :: signingCalls wallet inputs tx0 (length inputs).
Proof.
  intros Hrun.
  destruct (ltb (inputAmount inputs) MINIMUM_AMOUNT) eqn:Hmin.
  { unfold createFinalTx in Hrun. rewrite Hmin in Hrun. discriminate. }
  destruct (negb (truthy feeRate) || ltb (to_number feeRate) zero) eqn:Hrate.
  { unfold createFinalTx in Hrun. rewrite Hmin, Hrate in Hrun. discriminate. }
  rewrite createFinalTx_run in Hrun by assumption. cbv zeta in Hrun.
  destruct (ltb (sub (inputAmount inputs) (feeOf wallet inputs feeRate))
                MINIMUM_OUTPUT) eqn:Hfee; [discriminate|].
  injection Hrun as <- <-. auto.
Qed.

(** *** The inputs through the signing loop *)

Lemma set_script_nth (xs : list Input.t) (k i : nat) (s : Buffer) :
  nth_error (Transaction.set_script xs k s) i
  = option_map
      (fun x => if (i =? k)%nat
                then Input.mk (Input.hash x) (Input.index x) s (Input.sequence x)
                else x)
      (nth_error xs i).
Proof.
  revert k i; induction xs as [|x xs IH]; intros [|k] [|i]; simpl;
    try reflexivity.
  - now destruct (nth_error xs i).
  - apply IH.
Qed.

Lemma signedUpTo_nth (x0 : Transaction.t) (k i : nat) :
  nth_error (Transaction.ins (signedUpTo wallet inputs x0 k)) i
  = option_map
      (fun x =>
         match nth_error inputs i with
         | Some u =>
             if (i <? k)%nat
             then Input.mk (Input.hash x) (Input.index x)
                    (unlockingOf wallet u (signedUpTo wallet inputs x0 i) i)
                    (Input.sequence x)
             else x
         | None => x
         end)
      (nth_error (Transaction.ins x0) i).
Proof.
  induction k as [|k IH].
  - simpl. destruct (nth_error (Transaction.ins x0) i); simpl; [|reflexivity].
    now destruct (nth_error inputs i).
  - cbn [signedUpTo].
    destruct (nth_error inputs k) as [u|] eqn:Hu.
    + cbn [Transaction.setInScript Transaction.ins].
      rewrite set_script_nth, IH.
      destruct (nth_error (Transaction.ins x0) i) as [x|]; [|reflexivity].
      cbn [option_map]. f_equal.
      destruct (Nat.eqb_spec i k) as [->|Hne].
      * rewrite Hu, Nat.ltb_irrefl.
        replace (k <? S k)%nat with true by (symmetry; apply Nat.ltb_lt; lia).
        reflexivity.
      * destruct (nth_error inputs i); [|reflexivity].
        destruct (Nat.ltb_spec i k), (Nat.ltb_spec i (S k)); try lia;
          reflexivity.
    + rewrite IH.
      destruct (nth_error (Transaction.ins x0) i) as [x|]; [|reflexivity].
      cbn [option_map]. f_equal.
      destruct (nth_error inputs i) eqn:Hi; [|reflexivity].
      assert (i < k)%nat.
      { apply nth_error_None in Hu.
        assert (i < length inputs)%nat by (apply nth_error_Some; congruence).
        lia. }
      destruct (Nat.ltb_spec i k), (Nat.ltb_spec i (S k)); try lia;
        reflexivity.
Qed.

Lemma signingCalls_length (x0 : Transaction.t) (k : nat) :
  (k <= length inputs)%nat ->
  length (signingCalls wallet inputs x0 k) = (2 * k)%nat.
Proof.
  induction k as [|k IH]; intros Hk; [reflexivity|].
  cbn [signingCalls]. rewrite length_app, IH by lia.
  destruct (nth_error inputs k) eqn:Hu;
    [simpl; lia | apply nth_error_None in Hu; lia].
Qed.

Lemma signingCalls_nth (x0 : Transaction.t) (k i : nat) (u : Utxo) :
  (k <= length inputs)%nat -> (i < k)%nat -> nth_error inputs i = Some u ->
  let txi := signedUpTo wallet inputs x0 i in
  nth_error (signingCalls wallet inputs x0 k) (2 * i)
  = Some (HashForSignature txi i (Buffer_from_hex (script u))
                           Transaction.SIGHASH_ALL) /\
  nth_error (signingCalls wallet inputs x0 k) (2 * i + 1)
  = Some (Secp256k1Sign (digestOf u txi i) (privateKeys_bitcoin wallet)).
Proof.
  intros Hk Hi Hu txi. induction k as [|k IH]; [lia|].
  cbn [signingCalls].
  destruct (Nat.eq_dec i k) as [->|Hne].
  - rewrite Hu. rewrite !nth_error_app2 by (rewrite signingCalls_length; lia).
    rewrite signingCalls_length by lia.
    replace (2 * k - 2 * k)%nat with 0%nat by lia.
    replace (2 * k + 1 - 2 * k)%nat with 1%nat by lia.
    split; reflexivity.
  - rewrite !nth_error_app1 by (rewrite signingCalls_length; lia).
    apply IH; lia.
Qed.

End Build.

Lemma varIntSize_pos (n : Z) : 0 < Transaction.varIntSize n.
Proof.
  unfold Transaction.varIntSize.
  destruct (n <? 253), (n <? 65536), (n <? 4294967296); lia.
Qed.

Lemma scriptSize_pos (s : Buffer) : 0 < Transaction.scriptSize s.
Proof.
  unfold Transaction.scriptSize.
  pose proof (varIntSize_pos (Z.of_nat (length s))). lia.
Qed.

Lemma fold_left_sizes_nonneg {A} (c : Z) (f : A -> Z) (xs : list A) (acc : Z) :
  0 <= c -> (forall x, 0 <= f x) -> 0 <= acc ->
  0 <= fold_left (fun sum x => sum + c + f x) xs acc.
Proof.
  intros Hc Hf. revert acc; induction xs as [|x xs IH]; intros acc Hacc; simpl;
    [exact Hacc|].
  apply IH. specialize (Hf x). lia.
Qed.

Lemma byteLength_pos (t : Transaction.t) : 0 < Transaction.byteLength t.
Proof.
  unfold Transaction.byteLength.
  pose proof (varIntSize_pos (Z.of_nat (length (Transaction.ins t)))).
  pose proof (varIntSize_pos (Z.of_nat (length (Transaction.outs t)))).
  pose proof (fold_left_sizes_nonneg 40
                (fun input => Transaction.scriptSize (Input.script input))
                (Transaction.ins t) 0 ltac:(lia)
                (fun x => Z.lt_le_incl _ _ (scriptSize_pos _)) ltac:(lia)).
  pose proof (fold_left_sizes_nonneg 8
                (fun output => Transaction.scriptSize (Output.script output))
                (Transaction.outs t) 0 ltac:(lia)
                (fun x => Z.lt_le_incl _ _ (scriptSize_pos _)) ltac:(lia)).
  lia.
Qed.

(** A fee rate that passes the check on it is a positive number. *)
Lemma feeRate_accepted (feeRate : jsval) :
  negb (truthy feeRate) || ltb (to_number feeRate) zero = false <->
  exists x, feeRate = JNumber x /\ ltb zero x = true.
Proof.
  split.
  - destruct feeRate as [| |x]; try discriminate. simpl.
    rewrite falsy_or_negative. intros Hx. exists x. split; [reflexivity|].
    now destruct (ltb zero x).
  - intros (x & -> & Hx). simpl. now rewrite falsy_or_negative, Hx.
Qed.

(** The fee of an accepted rate is a number. *)
Lemma feeOf_not_nan (wallet : Wallet) (inputs : list Utxo) (x : number) :
  ltb zero x = true -> is_nan (feeOf wallet inputs (JNumber x)) = false.
Proof.
  intros Hx. unfold feeOf. apply mul_pos_not_nan.
  - apply of_Z_pos, byteLength_pos.
  - now apply positive_shape.
Qed.

(** ** [createFinalTx] on integer amounts and rates *)

Lemma total_nonneg (vs : list Z) : Forall (fun v => 0 <= v) vs -> 0 <= total vs.
Proof.
  induction 1 as [|v vs Hv Hall IH]; [reflexivity|].
  change (total (v :: vs)) with (v + total vs). lia.
Qed.

Lemma inputAmount_from (inputs : list Utxo) (vs : list Z) (a : Z) :
  map value inputs = map of_Z vs ->
  Forall (fun v => 0 <= v) vs ->
  0 <= a -> a + total vs < 2 ^ 53 ->
  fold_left (fun inputAmount input => add inputAmount (value input))
            inputs (of_Z a)
  = of_Z (a + total vs).
Proof.
  revert vs a; induction inputs as [|u inputs IH]; intros [|v vs] a Hmap Hall Ha Hlt;
    try discriminate.
  - change (total []) with 0. cbn [fold_left]. now rewrite Z.add_0_r.
  - cbn [map] in Hmap. injection Hmap as Hv Hmap.
    inversion Hall as [|? ? Hv0 Hall']; subst.
    pose proof (total_nonneg vs Hall') as Ht.
    change (total (v :: vs)) with (v + total vs) in *.
    cbn [fold_left]. rewrite Hv, add_exact by lia.
    rewrite (IH vs (a + v)) by (try assumption; lia).
    f_equal. lia.
Qed.

(** The running sum of integer amounts is their sum. *)
Lemma inputAmount_exact (inputs : list Utxo) (vs : list Z) :
  map value inputs = map of_Z vs ->
  Forall (fun v => 0 <= v) vs ->
  total vs < 2 ^ 53 ->
  inputAmount inputs = of_Z (total vs).
Proof.
  intros Hmap Hall Hlt. unfold inputAmount.
  change zero with (of_Z 0).
  now rewrite (inputAmount_from inputs vs 0) by (try assumption; lia).
Qed.

(** The fee at an integer rate is the integer product. *)
Lemma feeOf_exact (wallet : Wallet) (inputs : list Utxo) (rate : Z) :
  0 < rate ->
  Transaction.byteLength (unsignedTx wallet inputs) * rate < 2 ^ 53 ->
  feeOf wallet inputs (JNumber (of_Z rate))
  = of_Z (Transaction.byteLength (unsignedTx wallet inputs) * rate).
Proof.
  intros Hrate Hlt. unfold feeOf. cbn [to_number].
  pose proof (byteLength_pos (unsignedTx wallet inputs)) as Hlen.
  apply mul_exact; nia.
Qed.

(** ** Positional number systems *)

Section DigitStrings.

Local Open Scope N_scope.
Import Radix.

Lemma last_rev_hd (ds : list N) (d : N) : last (rev ds) d = hd d ds.
Proof.
  destruct ds as [|x ds]; [reflexivity|]. simpl. apply last_last.
Qed.

Lemma rev_repeat {A} (x : A) (z : nat) : rev (repeat x z) = repeat x z.
Proof.
  induction z as [|z IH]; [reflexivity|].
  simpl. rewrite IH. symmetry. apply repeat_cons.
Qed.

Lemma leading_zeros_strip (ds : list N) :
  repeat 0 (leading_zeros ds) ++ strip_zeros ds = ds.
Proof.
  induction ds as [|d ds IH]; [reflexivity|].
  destruct d; simpl; [now rewrite IH|reflexivity].
Qed.

Lemma strip_zeros_hd (ds : list N) : hd 1 (strip_zeros ds) <> 0.
Proof.
  induction ds as [|d ds IH]; simpl; [lia|].
  destruct d; simpl; [exact IH|lia].
Qed.

Lemma leading_zeros_app (z : nat) (ds : list N) :
  hd 1 ds <> 0 -> leading_zeros (repeat 0 z ++ ds) = z.
Proof.
  intros Hhd. induction z as [|z IH]; simpl.
  - destruct ds as [|d ds]; [reflexivity|]. simpl in Hhd.
    destruct d; [contradiction|reflexivity].
  - now rewrite IH.
Qed.

End DigitStrings.

Section RadixFacts.

Local Open Scope N_scope.
Import Radix.

Variable b : N.
Hypothesis b_ge_2 : 2 <= b.

Lemma half_bound (n : N) (fuel : nat) :
  n < 2 ^ N.of_nat (S fuel) -> n / b < 2 ^ N.of_nat fuel.
Proof.
  intros Hn. rewrite Nat2N.inj_succ, N.pow_succ_r' in Hn.
  apply N.le_lt_trans with (n / 2).
  - apply N.div_le_compat_l. lia.
  - apply N.Div0.div_lt_upper_bound. lia.
Qed.

Lemma of_lsb_to_lsb (fuel : nat) (n : N) :
  n < 2 ^ N.of_nat fuel -> of_lsb b (to_lsb fuel b n) = n.
Proof.
  revert n; induction fuel as [|fuel IH]; intros n Hn.
  - simpl in *. lia.
  - cbn [to_lsb]. destruct (N.eqb_spec n 0) as [->|Hn0]; [reflexivity|].
    cbn [of_lsb]. rewrite IH by now apply half_bound.
    pose proof (N.div_mod n b ltac:(lia)). lia.
Qed.

Lemma to_lsb_normal (fuel : nat) (n : N) :
  n < 2 ^ N.of_nat fuel -> normal b (to_lsb fuel b n).
Proof.
  revert n; induction fuel as [|fuel IH]; intros n Hn.
  - split; [constructor|simpl; lia].
  - cbn [to_lsb]. destruct (N.eqb_spec n 0) as [->|Hn0].
    + split; [constructor|simpl; lia].
    + destruct (IH (n / b) (half_bound _ _ Hn)) as [Hall Hlast].
      split.
      * constructor; [apply N.mod_lt; lia|exact Hall].
      * pose proof (of_lsb_to_lsb fuel (n / b) (half_bound _ _ Hn)) as Hv.
        destruct (to_lsb fuel b (n / b)) as [|d ds] eqn:Hds.
        -- simpl in Hv. simpl.
           pose proof (N.div_mod n b ltac:(lia)). lia.
        -- exact Hlast.
Qed.

Lemma of_lsb_normal_pos (ds : list N) :
  normal b ds -> ds <> [] -> of_lsb b ds <> 0.
Proof.
  induction ds as [|d ds IH]; intros [Hall Hlast] Hne; [congruence|].
  cbn [of_lsb]. destruct ds as [|d' ds'].
  - cbn [of_lsb last] in *. lia.
  - inversion Hall; subst.
    assert (of_lsb b (d' :: ds') <> 0) by (apply IH; [split; assumption|discriminate]).
    nia.
Qed.

Lemma to_lsb_of_lsb (fuel : nat) (ds : list N) :
  normal b ds -> of_lsb b ds < 2 ^ N.of_nat fuel ->
  to_lsb fuel b (of_lsb b ds) = ds.
Proof.
  revert fuel; induction ds as [|d ds IH]; intros fuel Hnorm Hlt.
  - destruct fuel; reflexivity.
  - pose proof (of_lsb_normal_pos _ Hnorm ltac:(discriminate)) as Hpos.
    destruct fuel as [|fuel]; [change (2 ^ N.of_nat 0) with 1 in Hlt; lia|].
    cbn [to_lsb]. destruct (N.eqb_spec (of_lsb b (d :: ds)) 0) as [E|_];
      [contradiction|].
    destruct Hnorm as [Hall Hlast]. inversion Hall as [|? ? Hd Hall']; subst.
    assert (Hmod : of_lsb b (d :: ds) mod b = d).
    { cbn [of_lsb]. rewrite N.mul_comm, N.Div0.mod_add.
      apply N.mod_small; exact Hd. }
    assert (Hdiv : of_lsb b (d :: ds) / b = of_lsb b ds).
    { cbn [of_lsb]. rewrite N.mul_comm, N.div_add by lia.
      rewrite N.div_small by exact Hd. reflexivity. }
    rewrite Hmod. f_equal.
    pose proof (half_bound _ _ Hlt) as Hlt'. rewrite Hdiv in *.
    apply IH; [|exact Hlt'].
    split; [exact Hall'|].
    destruct ds; [simpl; lia|exact Hlast].
Qed.

Lemma size_fuel (n : N) : n < 2 ^ N.of_nat (N.to_nat (N.size n)).
Proof. rewrite N2Nat.id. apply N.size_gt. Qed.

Lemma of_digits_to_digits (n : N) : of_digits b (to_digits b n) = n.
Proof.
  unfold of_digits, to_digits. rewrite rev_involutive.
  apply of_lsb_to_lsb, size_fuel.
Qed.

Lemma to_digits_below (n : N) : Forall (fun d => d < b) (to_digits b n).
Proof.
  unfold to_digits. apply Forall_rev. apply to_lsb_normal, size_fuel.
Qed.

Lemma to_digits_hd (n : N) : hd 1 (to_digits b n) <> 0.
Proof.
  unfold to_digits. rewrite <- last_rev_hd, rev_involutive.
  apply to_lsb_normal, size_fuel.
Qed.

Lemma to_digits_of_digits (ds : list N) :
  Forall (fun d => d < b) ds -> hd 1 ds <> 0 ->
  to_digits b (of_digits b ds) = ds.
Proof.
  intros Hall Hhd. unfold to_digits, of_digits.
  rewrite to_lsb_of_lsb, rev_involutive; [reflexivity| |apply size_fuel].
  split; [now apply Forall_rev|now rewrite last_rev_hd].
Qed.

Lemma of_lsb_app_zeros (ds : list N) (z : nat) :
  of_lsb b (ds ++ repeat 0 z) = of_lsb b ds.
Proof.
  induction ds as [|d ds IH]; simpl.
  - induction z as [|z IHz]; simpl; lia.
  - now rewrite IH.
Qed.

Lemma of_digits_zeros (ds : list N) (z : nat) :
  of_digits b (repeat 0 z ++ ds) = of_digits b ds.
Proof.
  unfold of_digits. rewrite rev_app_distr, rev_repeat.
  apply of_lsb_app_zeros.
Qed.

Lemma strip_zeros_below (ds : list N) :
  Forall (fun d => d < b) ds -> Forall (fun d => d < b) (strip_zeros ds).
Proof.
  induction 1 as [|d ds Hd Hall IH]; simpl; [constructor|].
  destruct d; [exact IH|now constructor].
Qed.

End RadixFacts.

Section Conversion.

Local Open Scope N_scope.
Import Radix.

Variables b c : N.
Hypothesis b_ge_2 : 2 <= b.
Hypothesis c_ge_2 : 2 <= c.

Lemma convert_below (ds : list N) : Forall (fun d => d < c) (convert b c ds).
Proof.
  unfold convert. apply Forall_app. split.
  - apply Forall_forall. intros d Hd. apply repeat_spec in Hd. lia.
  - now apply to_digits_below.
Qed.

(** Converting to another base and back gives the digit string back. *)
Lemma convert_round_trip (ds : list N) :
  Forall (fun d => d < b) ds -> convert c b (convert b c ds) = ds.
Proof.
  intros Hall. unfold convert.
  set (n := of_digits b ds).
  rewrite leading_zeros_app by now apply to_digits_hd.
  rewrite (of_digits_zeros c), (of_digits_to_digits c) by assumption.
  assert (Hn : n = of_digits b (strip_zeros ds)).
  { unfold n.
    now rewrite <- (of_digits_zeros b b_ge_2 (strip_zeros ds) (leading_zeros ds)),
      leading_zeros_strip. }
  rewrite Hn, (to_digits_of_digits b) by
    (try assumption; auto using strip_zeros_below, strip_zeros_hd).
  apply leading_zeros_strip.
Qed.

End Conversion.

(** ** Base 58 and bs58check *)

Lemma digit_of_char_of_digit (d : N) :
  (d < 58)%N -> Base58.digit_of_char (Base58.char_of_digit d) = Some d.
Proof.
  intros Hd.
  assert (Hall : forallb
            (fun d => match Base58.digit_of_char (Base58.char_of_digit d) with
                      | Some d' => N.eqb d' d
                      | None => false
                      end)
            (map N.of_nat (seq 0 58)) = true) by (vm_compute; reflexivity).
  rewrite forallb_forall in Hall.
  specialize (Hall d).
  destruct (Base58.digit_of_char (Base58.char_of_digit d)) as [d'|].
  - f_equal. apply N.eqb_eq. apply Hall.
    apply in_map_iff. exists (N.to_nat d). split; [apply N2Nat.id|].
    apply in_seq. lia.
  - discriminate Hall.
    apply in_map_iff. exists (N.to_nat d). split; [apply N2Nat.id|].
    apply in_seq. lia.
Qed.

Lemma digits_of_chars_of_digits (ds : list N) :
  Forall (fun d => (d < 58)%N) ds ->
  Base58.digits_of_chars (map Base58.char_of_digit ds) = Some ds.
Proof.
  induction 1 as [|d ds Hd Hall IH]; [reflexivity|].
  cbn [map Base58.digits_of_chars].
  now rewrite digit_of_char_of_digit, IH.
Qed.

Lemma bytes_below_256 (buf : Buffer) :
  Forall (fun d => (d < 256)%N) (map Byte.to_N buf).
Proof.
  apply Forall_forall. intros d Hd. apply in_map_iff in Hd.
  destruct Hd as (x & <- & _). pose proof (Byte.to_N_bounded x). lia.
Qed.

Lemma bytes_of_N_to_N (buf : Buffer) : map byte_of_N (map Byte.to_N buf) = buf.
Proof.
  rewrite map_map. rewrite <- (map_id buf) at 2. apply map_ext.
  intros x. unfold byte_of_N. now rewrite Byte.of_to_N.
Qed.

(** Decoding an encoded byte string gives the byte string back. *)
Lemma base58_round_trip (buf : Buffer) :
  Base58.decode (Base58.encode buf) = Some buf.
Proof.
  unfold Base58.decode, Base58.encode.
  rewrite list_ascii_of_string_of_list_ascii.
  rewrite digits_of_chars_of_digits by (apply convert_below; lia).
  rewrite convert_round_trip by (try lia; apply bytes_below_256).
  now rewrite bytes_of_N_to_N.
Qed.

Lemma Buffer_eqb_refl (a : Buffer) : Buffer_eqb a a = true.
Proof. unfold Buffer_eqb. now destruct (list_eq_dec Byte.byte_eq_dec a a). Qed.

Lemma Buffer_eqb_neq (a b : Buffer) : a <> b -> Buffer_eqb a b = false.
Proof. unfold Buffer_eqb. now destruct (list_eq_dec Byte.byte_eq_dec a b). Qed.

Lemma bs58check_round_trip `{Platform} (payload : Buffer) :
  length (Bs58check.checksum payload) = 4%nat ->
  Bs58check.decode (Bs58check.encode payload) = inr payload.
Proof.
  intros Hlen. unfold Bs58check.decode, Bs58check.encode.
  rewrite base58_round_trip. cbv zeta.
  rewrite length_app, Hlen.
  replace (length payload + 4 - 4)%nat with (length payload + 0)%nat by lia.
  rewrite firstn_app_2, skipn_app, Nat.add_0_r, skipn_all. cbn [firstn].
  rewrite app_nil_r.
  replace (length payload - length payload)%nat with 0%nat by lia.
  cbn [skipn app]. now rewrite Buffer_eqb_refl.
Qed.

Lemma pad_to_length (k : nat) (b : Buffer) : length (pad_to k b) = k.
Proof.
  unfold pad_to. rewrite length_firstn, length_app, repeat_length. lia.
Qed.

(** C9: decoding the address [getAddress] returns for a public key
    succeeds, the checksum being valid, and gives back the version byte
    [0x00] followed by the 20-byte [ripemd160(sha2(pub))] that [getAddress]
    put in; and decoding a base-58 string whose last four bytes are not the
    checksum of what precedes them fails with [InvalidChecksum]. *)
Theorem address_round_trip `{Platform} (pub : Buffer) :
  (forall b, length (sha2 b) = 32%nat) ->
  (forall b, length (ripemd160 b) = 20%nat) ->
  Bs58check.decode (getAddress pub) = inr (Byte.x00 :: ripemd160 (sha2 pub)) /\
  length (ripemd160 (sha2 pub)) = 20%nat /\
  forall s buf,
    Base58.decode s = Some buf ->
    skipn (length buf - 4) buf
      <> firstn 4 (sha2 (sha2 (firstn (length buf - 4) buf))) ->
    Bs58check.decode s = inl Bs58check.InvalidChecksum.
Proof.
  intros Hsha Hripemd. split; [|split].
  - unfold getAddress. cbv zeta. rewrite bs58check_round_trip.
    + reflexivity.
    + unfold Bs58check.checksum. rewrite length_firstn, Hsha. reflexivity.
  - apply Hripemd.
  - intros s buf Hdec Hneq. unfold Bs58check.decode. rewrite Hdec. cbv zeta.
    unfold Bs58check.checksum. now rewrite Buffer_eqb_neq.
Qed.

(** ** Bytes and big-endian integers *)

Lemma byte_to_of_Z (z : Z) : 0 <= z < 256 -> byte_to_Z (byte_of_Z z) = z.
Proof.
  intros Hz. unfold byte_to_Z, byte_of_Z, byte_of_N.
  destruct (Byte.of_N (Z.to_N z)) as [b|] eqn:Hb.
  - apply Byte.to_of_N in Hb. rewrite Hb. lia.
  - apply Byte.of_N_None_iff in Hb. lia.
Qed.

Import Secp256k1.

Lemma be_fold (bs : Buffer) (acc : Z) :
  fold_left (fun acc b => 256 * acc + byte_to_Z b) bs acc
  = acc * 256 ^ Z.of_nat (length bs) + be_to_Z bs.
Proof.
  unfold be_to_Z. revert acc; induction bs as [|b bs IH]; intros acc.
  - simpl. lia.
  - cbn [fold_left length]. rewrite IH, (IH (256 * 0 + byte_to_Z b)).
    rewrite Nat2Z.inj_succ, Z.pow_succ_r by lia. ring.
Qed.

Lemma be_to_Z_cons (b : Byte.byte) (bs : Buffer) :
  be_to_Z (b :: bs) = byte_to_Z b * 256 ^ Z.of_nat (length bs) + be_to_Z bs.
Proof.
  unfold be_to_Z at 1. cbn [fold_left]. rewrite be_fold. ring.
Qed.

Lemma be_to_Z_app (a b : Buffer) :
  be_to_Z (a ++ b) = be_to_Z a * 256 ^ Z.of_nat (length b) + be_to_Z b.
Proof.
  unfold be_to_Z at 1. rewrite fold_left_app. fold (be_to_Z a).
  apply be_fold.
Qed.

Lemma le_bytes_length (k : nat) (z : Z) : length (le_bytes k z) = k.
Proof. revert z; induction k; intros z; simpl; auto. Qed.

Lemma be_bytes_length (k : nat) (z : Z) : length (be_bytes k z) = k.
Proof. unfold be_bytes. now rewrite length_rev, le_bytes_length. Qed.

Lemma be_to_Z_be_bytes (k : nat) (z : Z) :
  0 <= z < 256 ^ Z.of_nat k -> be_to_Z (be_bytes k z) = z.
Proof.
  unfold be_bytes. revert z; induction k as [|k IH]; intros z Hz.
  - simpl in *. unfold be_to_Z. simpl. lia.
  - cbn [le_bytes rev]. rewrite be_to_Z_app. cbn [length].
    rewrite Nat2Z.inj_succ, Z.pow_succ_r in Hz by lia.
    rewrite IH.
    + unfold be_to_Z. cbn [fold_left].
      rewrite byte_to_of_Z by (apply Z.mod_pos_bound; lia).
      pose proof (Z.div_mod z 256 ltac:(lia)). lia.
    + split; [apply Z.div_pos; lia|].
      apply Z.div_lt_upper_bound; lia.
Qed.

(** ** DER *)

Lemma der_strip_value (bs : Buffer) : be_to_Z (der_strip bs) = be_to_Z bs.
Proof.
  induction bs as [|b0 bs IH]; [reflexivity|].
  cbn [der_strip]. destruct bs as [|b1 bs']; [reflexivity|].
  destruct (byte_to_Z b0 =? 0) eqn:E0; [|reflexivity].
  destruct (byte_to_Z b1 <? 128); cbn [andb]; [|reflexivity].
  rewrite IH. rewrite (be_to_Z_cons b0). apply Z.eqb_eq in E0. rewrite E0. lia.
Qed.

Lemma der_strip_length (bs : Buffer) : (length (der_strip bs) <= length bs)%nat.
Proof.
  induction bs as [|b0 bs IH]; [reflexivity|].
  cbn [der_strip]. destruct bs as [|b1 bs']; [reflexivity|].
  destruct ((byte_to_Z b0 =? 0) && (byte_to_Z b1 <? 128)); [|reflexivity].
  cbn [length] in *. lia.
Qed.

Lemma der_integer_length (bs : Buffer) :
  (length (der_integer bs) <= 3 + length bs)%nat.
Proof.
  unfold der_integer. cbv zeta. rewrite length_app. cbn [length].
  pose proof (der_strip_length (Byte.x00 :: bs)). cbn [length] in *. lia.
Qed.

Lemma der_read_integer_der_integer (bs rest : Buffer) :
  (length bs <= 32)%nat ->
  der_read_integer (der_integer bs ++ rest) = Some (be_to_Z bs, rest).
Proof.
  intros Hlen. unfold der_integer. cbv zeta.
  pose proof (der_strip_length (Byte.x00 :: bs)) as Hs. cbn [length] in Hs.
  pose proof (der_strip_value (Byte.x00 :: bs)) as Hv.
  rewrite be_to_Z_cons in Hv. change (byte_to_Z Byte.x00) with 0 in Hv.
  set (body := der_strip (Byte.x00 :: bs)) in *.
  rewrite Z.mul_0_l, Z.add_0_l in Hv.
  assert (Hb : 0 <= Z.of_nat (length body) < 256) by lia.
  cbn [app der_read_integer].
  rewrite (byte_to_of_Z 2), (byte_to_of_Z _ Hb) by lia. cbn [Z.eqb Pos.eqb].
  rewrite Nat2Z.id.
  replace (length body <=? length (body ++ rest))%nat with true
    by (symmetry; apply Nat.leb_le; rewrite length_app; lia).
  rewrite firstn_app, Nat.sub_diag, firstn_all. cbn [firstn].
  rewrite app_nil_r, skipn_app, Nat.sub_diag, skipn_all. cbn [skipn app].
  now rewrite Hv.
Qed.

(** Reading back an exported signature gives its two halves. *)
Lemma signatureImport_signatureExport (signature : Buffer) :
  length signature = 64%nat ->
  signatureImport (signatureExport signature)
  = Some (sig_r signature, sig_s signature).
Proof.
  intros Hlen. unfold signatureExport. cbv zeta.
  assert (Hr : (length (firstn 32 signature) <= 32)%nat)
    by (rewrite length_firstn; lia).
  assert (Hs : (length (skipn 32 signature) <= 32)%nat)
    by (rewrite length_skipn; lia).
  pose proof (der_integer_length (firstn 32 signature)) as Lr.
  pose proof (der_integer_length (skipn 32 signature)) as Ls.
  cbn [app signatureImport].
  rewrite !byte_to_of_Z by lia. rewrite length_app.
  cbn [Z.eqb Pos.eqb andb]. rewrite Z.eqb_refl.
  rewrite der_read_integer_der_integer by exact Hr.
  rewrite <- (app_nil_r (der_integer (skipn 32 signature))).
  rewrite der_read_integer_der_integer by exact Hs.
  reflexivity.
Qed.

(** ** Low-S normalisation *)

Lemma nh_half : n = 2 * nh + 1.
Proof. reflexivity. Qed.

Lemma n_below : n < 256 ^ 32.
Proof. reflexivity. Qed.

Lemma signatureNormalize_spec (signature : Buffer) :
  length signature = 64%nat ->
  0 < sig_s signature < n ->
  let s' := if sig_s signature >? nh then n - sig_s signature
            else sig_s signature in
  length (signatureNormalize signature) = 64%nat /\
  sig_r (signatureNormalize signature) = sig_r signature /\
  sig_s (signatureNormalize signature) = s' /\
  0 < s' <= nh.
Proof.
  intros Hlen Hs. cbv zeta. unfold signatureNormalize.
  pose proof nh_half as Hn. pose proof n_below as Hb.
  destruct (sig_s signature >? nh) eqn:Hhigh.
  - apply Z.gtb_gt in Hhigh.
    assert (Hl : length (firstn 32 signature) = 32%nat)
      by (rewrite length_firstn; lia).
    repeat split.
    + rewrite length_app, be_bytes_length. lia.
    + unfold sig_r.
      now rewrite firstn_app, Hl, Nat.sub_diag, firstn_O, app_nil_r,
        firstn_firstn.
    + unfold sig_s at 1. rewrite skipn_app, Hl, Nat.sub_diag.
      rewrite skipn_all2 by lia. cbn [skipn app].
      apply be_to_Z_be_bytes. change (Z.of_nat 32) with 32. lia.
    + lia.
    + lia.
  - assert (~ sig_s signature > nh) by (rewrite <- Z.gtb_gt; congruence).
    repeat split; try assumption; lia.
Qed.

(** C7: the signature [sign] returns is DER-encoded and in low-S form: its
    S value is that of the signature made by the signing primitive when that
    is at most half the group order, and the group order minus it otherwise,
    so it is at most half the group order; in the unlocking script of a
    signed input it is followed by the one sighash-type byte. *)
Theorem sign_low_s `{Platform} (privKey sigHash : Buffer) :
  let signature := secp256k1_sign sigHash privKey in
  length signature = 64%nat ->
  0 < Secp256k1.sig_s signature < Secp256k1.n ->
  exists der s',
    sign privKey sigHash = (inr der, [Secp256k1Sign sigHash privKey]) /\
    Secp256k1.signatureImport der = Some (Secp256k1.sig_r signature, s') /\
    s' = (if Secp256k1.sig_s signature >? Secp256k1.n / 2
          then Secp256k1.n - Secp256k1.sig_s signature
          else Secp256k1.sig_s signature) /\
    0 < s' <= Secp256k1.n / 2 /\
    forall utxos pubKey tx i input prevOut,
      nth_error (Transaction.ins tx) i = Some input ->
      nth_error utxos i = Some prevOut ->
      hashForSignature tx i (Buffer_from_hex (script prevOut))
                       Transaction.SIGHASH_ALL = sigHash ->
      exists tx' calls input',
        signInput utxos privKey pubKey Transaction.SIGHASH_ALL tx i
        = (inr tx', calls) /\
        nth_error (Transaction.ins tx') i = Some input' /\
        Input.script input'
        = Script.push (der ++ [byte_of_Z Transaction.SIGHASH_ALL])
            ++ Script.push pubKey.
Proof.
  intros signature Hlen Hs.
  destruct (signatureNormalize_spec signature Hlen Hs) as (Hl & Hr & Hs' & Hlow).
  change (Secp256k1.n / 2) with Secp256k1.nh.
  eexists _, _. split; [reflexivity|].
  split; [|split; [reflexivity|split; [exact Hlow|]]].
  - fold signature. rewrite signatureImport_signatureExport by exact Hl.
    now rewrite Hr, Hs'.
  - intros utxos pubKey tx i input prevOut Hin Hu Hdigest.
    unfold signInput, at_index. rewrite Hin, Hu, <- Hdigest.
    eexists _, _, _. split; [reflexivity|].
    cbn [Transaction.setInScript Transaction.ins].
    rewrite set_script_nth, Hin, Nat.eqb_refl. cbn [option_map Input.script].
    split; reflexivity.
Qed.

(** ** The properties of [createFinalTx] *)



(** C3: a successful build leaves in the first output the sum of the input
    values minus [feeAmount], which is at least the floor (the sum being a
    finite number); and when that difference is below the floor, the
    earlier checks having passed, the build fails with
    [FeeExceedsAvailableFunds], which reports the byte length, the rate, the
    fee and the first output's value before the fee, and returns no
    transaction. *)
Theorem fee_deduction_or_failure `{Platform}
    (wallet : Wallet) (inputs : list Utxo) (feeRate : jsval) :
  (forall r calls,
      createFinalTx wallet inputs feeRate = (inr r, calls) ->
      exists o0 o1,
        Transaction.outs (tx r) = [o0; o1] /\
        Output.value o0 = sub (inputAmount inputs) (feeAmount r) /\
        ltb (Output.value o0) MINIMUM_OUTPUT = false /\
        (is_finite (inputAmount inputs) = true ->
         leb MINIMUM_OUTPUT (Output.value o0) = true)) /\
  (forall x,
      feeRate = JNumber x ->
      leb MINIMUM_AMOUNT (inputAmount inputs) = true ->
      ltb zero x = true ->
      ltb (sub (inputAmount inputs) (feeOf wallet inputs feeRate)) MINIMUM_OUTPUT
        = true ->
      exists calls,
        createFinalTx wallet inputs feeRate
        = (inl (FeeExceedsAvailableFunds
                  (of_Z (Transaction.byteLength (unsignedTx wallet inputs)))
                  feeRate
                  (mul (of_Z (Transaction.byteLength (unsignedTx wallet inputs)))
                       (to_number feeRate))
                  (inputAmount inputs)),
           calls)).
Proof.
  split.
  - intros r calls Hrun.
    destruct (createFinalTx_success _ _ _ _ _ Hrun) as (_ & Hrate & Hfee & -> & _).
    cbn [tx feeAmount]. rewrite signedUpTo_outs.
    eexists _, _. split; [reflexivity|]. cbn [Output.value].
    split; [reflexivity|]. split; [exact Hfee|].
    intros Hfin. apply feeRate_accepted in Hrate as (x & -> & Hx).
    apply not_ltb_leb; [|apply of_Z_not_nan|exact Hfee].
    apply sub_not_nan; [exact Hfin|now apply feeOf_not_nan].
  - intros x -> Hmin Hx Hfee. apply leb_not_ltb in Hmin.
    assert (Hrate : negb (truthy (JNumber x)) || ltb (to_number (JNumber x)) zero
                    = false) by (apply feeRate_accepted; eauto).
    rewrite (createFinalTx_run wallet inputs (JNumber x) Hmin Hrate).
    cbv zeta. rewrite Hfee. eexists. reflexivity.
Qed.

(** C4: when the input values sum to less than the threshold (60,000 in
    development, 1,000,000 otherwise), as they do for the empty list, whose
    sum is 0, the build fails with [InsufficientAggregateAmount] carrying the
    threshold and the sum, before any call that builds or measures a
    transaction; when the sum is at or above the threshold the build does
    not fail that way. *)
Theorem aggregate_amount_check `{Platform}
    (wallet : Wallet) (inputs : list Utxo) (feeRate : jsval) :
  MINIMUM_AMOUNT = of_Z (if DEV then 60000 else 1000000) /\
  (ltb (inputAmount inputs) MINIMUM_AMOUNT = true ->
   createFinalTx wallet inputs feeRate
   = (inl (InsufficientAggregateAmount MINIMUM_AMOUNT (inputAmount inputs)), [])) /\
  (inputAmount [] = zero /\
   createFinalTx wallet [] feeRate
   = (inl (InsufficientAggregateAmount MINIMUM_AMOUNT zero), [])) /\
  (leb MINIMUM_AMOUNT (inputAmount inputs) = true ->
   forall minimum actual calls,
     createFinalTx wallet inputs feeRate
     <> (inl (InsufficientAggregateAmount minimum actual), calls)).
Proof.
  split; [reflexivity|]. split; [|split].
  - intros Hlt. unfold createFinalTx. now rewrite Hlt.
  - split; [reflexivity|].
    unfold createFinalTx, MINIMUM_AMOUNT. cbn [inputAmount fold_left].
    now destruct DEV.
  - intros Hge minimum actual calls Hrun. apply leb_not_ltb in Hge.
    unfold createFinalTx in Hrun. rewrite Hge in Hrun.
    destruct (negb (truthy feeRate) || ltb (to_number feeRate) zero) eqn:Hrate;
      [discriminate|].
    fold (createFinalTx wallet inputs feeRate) in Hrun.
    pose proof (createFinalTx_run wallet inputs feeRate Hge Hrate) as Hrun'.
    unfold createFinalTx in Hrun'. rewrite Hge, Hrate in Hrun'.
    rewrite Hrun' in Hrun. cbv zeta in Hrun.
    destruct (ltb _ MINIMUM_OUTPUT); discriminate.
Qed.

(** C5: the aggregate-amount check having passed, the build fails with
    [InvalidFeeRate] exactly when the fee rate is left out or is not a number
    above zero, and it then fails before any call that builds a transaction;
    in particular the rates [0], [-0], [NaN] and every negative rate are
    rejected. *)
Theorem fee_rate_check `{Platform}
    (wallet : Wallet) (inputs : list Utxo) (feeRate : jsval) :
  ltb (inputAmount inputs) MINIMUM_AMOUNT = false ->
  (fst (createFinalTx wallet inputs feeRate) = inl InvalidFeeRate <->
   ~ exists x, feeRate = JNumber x /\ ltb zero x = true) /\
  (fst (createFinalTx wallet inputs feeRate) = inl InvalidFeeRate ->
   snd (createFinalTx wallet inputs feeRate) = []) /\
  (feeRate = JUndefined \/ feeRate = JNull \/
   (exists x, feeRate = JNumber x /\
              (x = S754_zero false \/ x = S754_zero true \/ x = NaN \/
               ltb x zero = true)) ->
   createFinalTx wallet inputs feeRate = (inl InvalidFeeRate, [])).
Proof.
  intros Hmin.
  assert (Hrej : negb (truthy feeRate) || ltb (to_number feeRate) zero = true ->
                 createFinalTx wallet inputs feeRate = (inl InvalidFeeRate, [])).
  { intros Hrate. unfold createFinalTx. now rewrite Hmin, Hrate. }
  assert (Hacc : negb (truthy feeRate) || ltb (to_number feeRate) zero = false ->
                 fst (createFinalTx wallet inputs feeRate) <> inl InvalidFeeRate).
  { intros Hrate. rewrite (createFinalTx_run wallet inputs feeRate Hmin Hrate).
    cbv zeta. destruct (ltb _ MINIMUM_OUTPUT); discriminate. }
  split; [|split].
  - rewrite <- feeRate_accepted.
    destruct (negb (truthy feeRate) || ltb (to_number feeRate) zero) eqn:Hrate.
    + rewrite Hrej by reflexivity. split; [discriminate|reflexivity].
    + split; [intros Hfail; now apply Hacc in Hfail|congruence].
  - destruct (negb (truthy feeRate) || ltb (to_number feeRate) zero) eqn:Hrate.
    + now rewrite Hrej.
    + intros Hfail. now apply Hacc in Hfail.
  - intros Hbad. apply Hrej.
    destruct Hbad as [->|[->|(x & -> & [->|[->|[->|Hneg]]])]]; try reflexivity.
    cbn [truthy to_number]. rewrite Hneg. apply orb_true_r.
Qed.

(** C6: in a successful build the signing loop handles the inputs in index
    order; for input [i] it asks for the SIGHASH_ALL signature hash of the
    transaction as it then stands, whose first output already has the fee
    taken off, with the locking script of spendable output [i], signs that
    digest, and stores as unlocking script the signature (DER, with the
    sighash-type byte appended) followed by the public key. *)
Theorem signing_order_and_digest `{Platform}
    (wallet : Wallet) (inputs : list Utxo) (feeRate : jsval)
    (r : Result) (calls : list Call) :
  createFinalTx wallet inputs feeRate = (inr r, calls) ->
  length calls = (length inputs + 4 + 2 * length inputs)%nat /\
  forall i u, nth_error inputs i = Some u ->
    let txi := signedUpTo wallet inputs (deductedTx wallet inputs feeRate) i in
    let prevOutScript := Buffer_from_hex (script u) in
    let digest := hashForSignature txi i prevOutScript Transaction.SIGHASH_ALL in
    let signature :=
      Secp256k1.signatureExport
        (Secp256k1.signatureNormalize
           (secp256k1_sign digest (privateKeys_bitcoin wallet))) in
    Transaction.outs txi
    = [Output.mk payToExodus (sub (inputAmount inputs) (feeAmount r));
       Output.mk (specifyCosmosAddress wallet) MINIMUM_OUTPUT] /\
    nth_error calls (length inputs + 4 + 2 * i)
    = Some (HashForSignature txi i prevOutScript Transaction.SIGHASH_ALL) /\
    nth_error calls (length inputs + 4 + 2 * i + 1)
    = Some (Secp256k1Sign digest (privateKeys_bitcoin wallet)) /\
    exists input,
      nth_error (Transaction.ins (tx r)) i = Some input /\
      Input.script input
      = Script.push (signature ++ [byte_of_Z Transaction.SIGHASH_ALL])
          ++ Script.push (publicKeys_bitcoin wallet).
Proof.
  intros Hrun.
  destruct (createFinalTx_success _ _ _ _ _ Hrun) as (_ & _ & _ & -> & ->).
  assert (Hpre : length (constructionCalls wallet inputs
                           ++ [ByteLength (unsignedTx wallet inputs)])
                 = (length inputs + 4)%nat).
  { unfold constructionCalls. rewrite length_app. cbn [length].
    rewrite length_app, length_map. cbn [length]. lia. }
  change (constructionCalls wallet inputs
            ++ ByteLength (unsignedTx wallet inputs)
            :: signingCalls wallet inputs (deductedTx wallet inputs feeRate)
                 (length inputs))
    with (constructionCalls wallet inputs
            ++ [ByteLength (unsignedTx wallet inputs)]
            ++ signingCalls wallet inputs (deductedTx wallet inputs feeRate)
                 (length inputs)).
  rewrite app_assoc.
  split.
  { rewrite length_app, Hpre, signingCalls_length by lia. reflexivity. }
  intros i u Hu txi prevOutScript digest signature.
  assert (Hi : (i < length inputs)%nat) by (apply nth_error_Some; congruence).
  split; [|split; [|split]].
  - unfold txi. rewrite signedUpTo_outs. reflexivity.
  - rewrite nth_error_app2 by lia. rewrite Hpre.
    replace (length inputs + 4 + 2 * i - (length inputs + 4))%nat
      with (2 * i)%nat by lia.
    now apply signingCalls_nth.
  - rewrite nth_error_app2 by lia. rewrite Hpre.
    replace (length inputs + 4 + 2 * i + 1 - (length inputs + 4))%nat
      with (2 * i + 1)%nat by lia.
    now apply signingCalls_nth.
  - cbn [tx]. rewrite signedUpTo_nth.
    cbn [deductedTx Transaction.setOutValue Transaction.ins unsignedTx].
    rewrite nth_error_map, Hu. cbn [option_map].
    replace (i <? length inputs)%nat with true
      by (symmetry; now apply Nat.ltb_lt).
    eexists. split; [reflexivity|]. reflexivity.
Qed.

(** C8, as amended: for every successful build [paidAmount] is the sum of
    the supplied input values as the loop adds them up, the exact sum for
    integer amounts that total less than 2^53, and [atomAmount] is the first
    output's value after the fee, times 2000, divided by 1e8, each of the
    two operations a double-precision one: the quotient is rounded to the
    nearest double, not kept as an exact rational. *)
Theorem paid_and_atom_amounts `{Platform}
    (wallet : Wallet) (inputs : list Utxo) (feeRate : jsval)
    (r : Result) (calls : list Call) :
  createFinalTx wallet inputs feeRate = (inr r, calls) ->
  paidAmount r = fold_left (fun acc input => add acc (value input)) inputs zero /\
  (forall satoshis,
      map value inputs = map of_Z satoshis ->
      Forall (fun v => 0 <= v) satoshis ->
      total satoshis < 2 ^ 53 ->
      paidAmount r = of_Z (total satoshis)) /\
  exists o0 o1,
    Transaction.outs (tx r) = [o0; o1] /\
    Output.value o0 = sub (paidAmount r) (feeAmount r) /\
    atomAmount r = div (mul (Output.value o0) (of_Z 2000)) (of_Z 100000000).
Proof.
  intros Hrun.
  destruct (createFinalTx_success _ _ _ _ _ Hrun) as (_ & _ & _ & -> & _).
  split; [reflexivity|]. cbn [tx paidAmount feeAmount atomAmount].
  split; [intros satoshis Hmap Hall Hlt; now apply inputAmount_exact|].
  rewrite signedUpTo_outs. eexists _, _. repeat split.
Qed.

(** C10: for every successful build the first output holds [paidAmount -
    feeAmount] and the second the fixed 1000 satoshis, so the two output
    values add up to [paidAmount - feeAmount + 1000]: the second output is
    paid for neither by the first output nor by [feeAmount]. On integer
    amounts and an integer rate (all below 2^53) these are the integers
    themselves, and what the inputs leave to the miner, inputs minus
    outputs, is [feeAmount - 1000]. *)
Theorem outputs_total `{Platform}
    (wallet : Wallet) (inputs : list Utxo) (feeRate : jsval)
    (r : Result) (calls : list Call) :
  createFinalTx wallet inputs feeRate = (inr r, calls) ->
  exists o0 o1,
    Transaction.outs (tx r) = [o0; o1] /\
    Output.value o0 = sub (paidAmount r) (feeAmount r) /\
    Output.value o1 = of_Z 1000 /\
    add (Output.value o0) (Output.value o1)
    = add (sub (paidAmount r) (feeAmount r)) (of_Z 1000) /\
    forall satoshis rate,
      map value inputs = map of_Z satoshis ->
      Forall (fun v => 0 <= v) satoshis ->
      total satoshis + 1000 < 2 ^ 53 ->
      feeRate = JNumber (of_Z rate) ->
      0 < rate ->
      Transaction.byteLength (unsignedTx wallet inputs) * rate < 2 ^ 53 ->
      let paid := total satoshis in
      let fee := Transaction.byteLength (unsignedTx wallet inputs) * rate in
      paidAmount r = of_Z paid /\
      feeAmount r = of_Z fee /\
      1000 <= paid - fee /\
      add (Output.value o0) (Output.value o1) = of_Z (paid - fee + 1000) /\
      sub (paidAmount r) (add (Output.value o0) (Output.value o1))
      = of_Z (fee - 1000).
Proof.
  intros Hrun.
  destruct (createFinalTx_success _ _ _ _ _ Hrun) as (_ & _ & Hfloor & -> & _).
  cbn [tx paidAmount feeAmount]. rewrite signedUpTo_outs.
  eexists _, _. split; [reflexivity|]. cbn [Output.value].
  split; [reflexivity|]. split; [reflexivity|]. split; [reflexivity|].
  intros satoshis rate Hmap Hall Hlt Heq Hrate Hfee. cbv zeta. subst feeRate.
  pose proof (total_nonneg satoshis Hall) as Hpaid.
  pose proof (byteLength_pos (unsignedTx wallet inputs)) as Hlen.
  rewrite (inputAmount_exact inputs satoshis) in * by (try assumption; lia).
  rewrite (feeOf_exact wallet inputs rate) in * by assumption.
  unfold MINIMUM_OUTPUT in *.
  set (paid := total satoshis) in *.
  set (fee := Transaction.byteLength (unsignedTx wallet inputs) * rate) in *.
  assert (Hfee0 : 0 < fee) by (unfold fee; nia).
  rewrite sub_exact in * by lia.
  rewrite ltb_exact in Hfloor by lia. apply Z.ltb_ge in Hfloor.
  rewrite add_exact by lia. rewrite sub_exact by lia.
  repeat split; try reflexivity; try assumption.
  f_equal. lia.
Qed.

(* ================================================================== *)
(** * The module run on concrete inputs *)
(* ================================================================== *)


(** C8, counterexample: for the two spendable outputs of 700,000 and
    400,000 satoshis at 50 satoshis per byte the first output is left with
    1,092,000 satoshis, and the [atomAmount] returned is not the rational
    1,092,000 * 2000 / 1e8: the double-precision division has rounded it. *)
Lemma atomAmount_rounded :
  exists r calls o0 o1 v a,
    createFinalTx example_wallet example_inputs (JNumber (of_Z 50))
      = (inr r, calls) /\
    Transaction.outs (tx r) = [o0; o1] /\
    to_Q (Output.value o0) = Some v /\ (v == 1092000)%Q /\
    to_Q (atomAmount r) = Some a /\
    ~ (a == v * 2000 / 100000000)%Q.
Proof.
  eexists _, _, _, _, _, _. split; [vm_compute; reflexivity|].
  split; [vm_compute; reflexivity|].
  split; [vm_compute; reflexivity|].
  split; [vm_compute; reflexivity|].
  split; [vm_compute; reflexivity|].
  intros E. vm_compute in E. discriminate E.
Qed.



(** C3 on that build, and on one spendable output of 1,000,000 satoshis at
    10,000 satoshis per byte, where the fee of 1,190,000 exceeds the
    funds. *)
Lemma fee_deduction_or_failure_witness :
  (exists r calls o0 o1,
      createFinalTx example_wallet example_inputs (JNumber (of_Z 50))
        = (inr r, calls) /\
      Transaction.outs (tx r) = [o0; o1] /\
      Output.value o0 = sub (inputAmount example_inputs) (feeAmount r) /\
      leb MINIMUM_OUTPUT (Output.value o0) = true) /\
  (exists calls,
      createFinalTx example_wallet [example_utxo 0 1000000] (JNumber (of_Z 10000))
      = (inl (FeeExceedsAvailableFunds
                (of_Z (Transaction.byteLength
                         (unsignedTx example_wallet [example_utxo 0 1000000])))
                (JNumber (of_Z 10000))
                (mul (of_Z (Transaction.byteLength
                              (unsignedTx example_wallet [example_utxo 0 1000000])))
                     (to_number (JNumber (of_Z 10000))))
                (inputAmount [example_utxo 0 1000000])), calls)) /\
  mul (of_Z (Transaction.byteLength
               (unsignedTx example_wallet [example_utxo 0 1000000])))
      (of_Z 10000) = of_Z 1190000.
Proof.
  split; [|split].
  - destruct (createFinalTx example_wallet example_inputs (JNumber (of_Z 50)))
      as [[e|r] calls] eqn:Hrun; [vm_compute in Hrun; discriminate Hrun|].
    destruct (proj1 (fee_deduction_or_failure example_wallet example_inputs
                       (JNumber (of_Z 50))) r calls Hrun)
      as (o0 & o1 & Houts & Hval & _ & Hfloor).
    exists r, calls, o0, o1.
    split; [reflexivity|]. split; [exact Houts|]. split; [exact Hval|].
    apply Hfloor. vm_compute. reflexivity.
  - assert (H1 : leb MINIMUM_AMOUNT (inputAmount [example_utxo 0 1000000])
                 = true) by (vm_compute; reflexivity).
    assert (H2 : ltb zero (of_Z 10000) = true) by (vm_compute; reflexivity).
    assert (H3 : ltb (sub (inputAmount [example_utxo 0 1000000])
                          (feeOf example_wallet [example_utxo 0 1000000]
                                 (JNumber (of_Z 10000))))
                     MINIMUM_OUTPUT = true) by (vm_compute; reflexivity).
    exact (proj2 (fee_deduction_or_failure example_wallet
                    [example_utxo 0 1000000] (JNumber (of_Z 10000)))
             (of_Z 10000) eq_refl H1 H2 H3).
  - vm_compute. reflexivity.
Defined.

(** C4 on one spendable output of 500,000 satoshis, and on the two of
    700,000 and 400,000. *)
Lemma aggregate_amount_check_witness :
  ltb (inputAmount [example_utxo 0 500000]) MINIMUM_AMOUNT = true /\
  createFinalTx example_wallet [example_utxo 0 500000] (JNumber (of_Z 50))
  = (inl (InsufficientAggregateAmount MINIMUM_AMOUNT
            (inputAmount [example_utxo 0 500000])), []) /\
  leb MINIMUM_AMOUNT (inputAmount example_inputs) = true /\
  forall minimum actual calls,
    createFinalTx example_wallet example_inputs (JNumber (of_Z 50))
    <> (inl (InsufficientAggregateAmount minimum actual), calls).
Proof.
  assert (H1 : ltb (inputAmount [example_utxo 0 500000]) MINIMUM_AMOUNT = true)
    by (vm_compute; reflexivity).
  assert (H2 : leb MINIMUM_AMOUNT (inputAmount example_inputs) = true)
    by (vm_compute; reflexivity).
  split; [exact H1|]. split; [|split; [exact H2|]].
  - exact (proj1 (proj2 (aggregate_amount_check example_wallet
                           [example_utxo 0 500000] (JNumber (of_Z 50)))) H1).
  - exact (proj2 (proj2 (proj2 (aggregate_amount_check example_wallet
                                  example_inputs (JNumber (of_Z 50))))) H2).
Defined.

(** C5 on the two spendable outputs, with the fee rate left out. *)
Lemma fee_rate_check_witness :
  ltb (inputAmount example_inputs) MINIMUM_AMOUNT = false /\
  createFinalTx example_wallet example_inputs JUndefined
  = (inl InvalidFeeRate, []).
Proof.
  assert (H1 : ltb (inputAmount example_inputs) MINIMUM_AMOUNT = false)
    by (vm_compute; reflexivity).
  split; [exact H1|].
  exact (proj2 (proj2 (fee_rate_check example_wallet example_inputs JUndefined H1))
           (or_introl eq_refl)).
Defined.

(** C6 on the two spendable outputs at 50 satoshis per byte: ten calls,
    the last four of them the two signing rounds. *)
Lemma signing_order_and_digest_witness :
  exists r calls,
    createFinalTx example_wallet example_inputs (JNumber (of_Z 50))
      = (inr r, calls) /\
    length calls = (length example_inputs + 4 + 2 * length example_inputs)%nat.
Proof.
  destruct (createFinalTx example_wallet example_inputs (JNumber (of_Z 50)))
    as [[e|r] calls] eqn:Hrun; [vm_compute in Hrun; discriminate Hrun|].
  exists r, calls. split; [reflexivity|].
  exact (proj1 (signing_order_and_digest example_wallet example_inputs
                  (JNumber (of_Z 50)) r calls Hrun)).
Defined.

(** C7 on a signature whose S value lies above half the group order. *)
Lemma sign_low_s_witness :
  let signature :=
    secp256k1_sign (repeat Byte.x01 32) (privateKeys_bitcoin example_wallet) in
  length signature = 64%nat /\
  0 < Secp256k1.sig_s signature < Secp256k1.n /\
  Secp256k1.sig_s signature > Secp256k1.n / 2 /\
  exists der s',
    sign (privateKeys_bitcoin example_wallet) (repeat Byte.x01 32)
    = (inr der, [Secp256k1Sign (repeat Byte.x01 32)
                               (privateKeys_bitcoin example_wallet)]) /\
    Secp256k1.signatureImport der = Some (Secp256k1.sig_r signature, s') /\
    0 < s' <= Secp256k1.n / 2.
Proof.
  intros signature.
  assert (H1 : length signature = 64%nat) by (vm_compute; reflexivity).
  assert (H2 : 0 < Secp256k1.sig_s signature < Secp256k1.n)
    by (vm_compute; split; reflexivity).
  split; [exact H1|]. split; [exact H2|]. split; [vm_compute; reflexivity|].
  destruct (sign_low_s (privateKeys_bitcoin example_wallet) (repeat Byte.x01 32)
              H1 H2) as (der & s' & Hrun & Himport & _ & Hlow & _).
  exists der, s'. repeat split; try assumption; apply Hlow.
Defined.

(** The amended C8 on the two spendable outputs at 50 satoshis per byte. *)
Lemma paid_and_atom_amounts_witness :
  exists r calls o0 o1,
    createFinalTx example_wallet example_inputs (JNumber (of_Z 50))
      = (inr r, calls) /\
    paidAmount r = of_Z 1100000 /\
    Transaction.outs (tx r) = [o0; o1] /\
    atomAmount r = div (mul (Output.value o0) (of_Z 2000)) (of_Z 100000000).
Proof.
  destruct (createFinalTx example_wallet example_inputs (JNumber (of_Z 50)))
    as [[e|r] calls] eqn:Hrun; [vm_compute in Hrun; discriminate Hrun|].
  destruct (paid_and_atom_amounts example_wallet example_inputs
              (JNumber (of_Z 50)) r calls Hrun)
    as (_ & Hpaid & o0 & o1 & Houts & Hval & Hatom).
  exists r, calls, o0, o1.
  split; [reflexivity|]. split; [|split; assumption].
  exact (Hpaid [700000; 400000] eq_refl ltac:(repeat constructor; lia)
           ltac:(vm_compute; reflexivity)).
Defined.

(** C9 on the example platform, whose hash functions have the digest
    lengths of the real ones. *)
Lemma address_round_trip_witness :
  (forall b, length (sha2 b) = 32%nat) /\
  (forall b, length (ripemd160 b) = 20%nat) /\
  Bs58check.decode (getAddress (publicKeys_bitcoin example_wallet))
  = inr (Byte.x00 :: ripemd160 (sha2 (publicKeys_bitcoin example_wallet))).
Proof.
  assert (H1 : forall b, length (sha2 b) = 32%nat)
    by (intros b; apply pad_to_length).
  assert (H2 : forall b, length (ripemd160 b) = 20%nat)
    by (intros b; apply pad_to_length).
  split; [exact H1|]. split; [exact H2|].
  exact (proj1 (address_round_trip (publicKeys_bitcoin example_wallet) H1 H2)).
Defined.

(** C10 on the two spendable outputs at 50 satoshis per byte: 1,100,000
    satoshis paid in, a [feeAmount] of 8,000, outputs of 1,092,000 and
    1,000, and 7,000 left to the miner. *)
Lemma outputs_total_witness :
  exists r calls o0 o1,
    createFinalTx example_wallet example_inputs (JNumber (of_Z 50))
      = (inr r, calls) /\
    Transaction.outs (tx r) = [o0; o1] /\
    Output.value o0 = sub (paidAmount r) (feeAmount r) /\
    Output.value o1 = of_Z 1000 /\
    paidAmount r = of_Z 1100000 /\
    feeAmount r = of_Z 8000 /\
    add (Output.value o0) (Output.value o1) = of_Z 1093000 /\
    sub (paidAmount r) (add (Output.value o0) (Output.value o1)) = of_Z 7000.
Proof.
  destruct (createFinalTx example_wallet example_inputs (JNumber (of_Z 50)))
    as [[e|r] calls] eqn:Hrun; [vm_compute in Hrun; discriminate Hrun|].
  destruct (outputs_total example_wallet example_inputs (JNumber (of_Z 50))
              r calls Hrun)
    as (o0 & o1 & Houts & Hv0 & Hv1 & Hsum & Hint).
  assert (Hlen : Transaction.byteLength (unsignedTx example_wallet example_inputs)
                 = 160) by (vm_compute; reflexivity).
  destruct (Hint [700000; 400000] 50 eq_refl
              ltac:(repeat constructor; lia) ltac:(vm_compute; reflexivity)
              eq_refl ltac:(lia) ltac:(rewrite Hlen; reflexivity))
    as (Hpaid & Hfee & _ & Hout & Hminer).
  rewrite Hlen in Hfee, Hout, Hminer.
  exists r, calls, o0, o1. repeat split; assumption.
Defined.
